(** * asyncawait: builder, suspendable-function synthesis and the iterable
      CPS protocol

    A shallow embedding of [src/asyncBuilder.js], the entry function of
    [src/async/index.js] and [src/UNIFY/async/patterns/iterable.cps.js].

    JavaScript objects that the code creates and mutates ([{}] followed by
    [_.mergeProps]) live in an explicit heap; closures are represented by the
    data they capture; user-supplied functions (protocol factories, protocol
    operations, invokees, callbacks) are function descriptors whose behaviour,
    where the code depends on it, is supplied by a [Host].  The source text
    that the specialized strategy assembles and evaluates is embedded for
    names that are plain identifiers; outside that fragment the outcome of a
    computation is [Unmodelled]. *)

From Stdlib Require Import ZArith Lia Ascii.
From stdpp Require Import base gmap strings list fin_maps.

(** ** JavaScript values *)
Module JS.

(** What the code can observe of a function object without calling it:
    [f.name], the declared parameter names (so [f.length], ES5: no default or
    rest parameters) and its identity. *)
Record JsFunction := {
  fn_name : string;
  fn_params : list string;
  fn_code : nat
}.

#[export] Instance JsFunction_eq_dec : EqDecision JsFunction.
Proof. solve_decision. Defined.

Inductive error :=
| Error (msg : string)
| AssertionError (msg : string)
| RangeError (msg : string)
| TypeError (msg : string)
| SyntaxError (msg : string).

#[export] Instance error_eq_dec : EqDecision error.
Proof. solve_decision. Defined.

(** Numbers are restricted to integers. [VRef] is a reference to a heap
    object, [VObj] an object literal taken by value, [VCoro] a coroutine
    handle, [VGlobal] the global object and [VBoxed] the wrapper object that a
    sloppy-mode callee sees for a primitive [this]. *)
#[warnings="-register-all"]
Inductive value :=
| VUndefined
| VNull
| VBool (b : bool)
| VNum (n : Z)
| VStr (s : string)
| VError (e : error)
| VFun (f : JsFunction)
| VGlobal
| VBoxed (v : value)
| VRef (l : nat)
| VCoro (id : nat)
| VObj (props : gmap string value).

(** The outcome of a computation: a value, a thrown error, or [Unmodelled]
    where the computation leaves the fragment of JavaScript that is embedded
    here (a property read from a value that is neither a function nor an
    object of the heap, the evaluation of a source text that is not the one
    the template intends).  Nothing is stated about what the code does
    then. *)
Inductive result (A : Type) :=
| Ok (a : A)
| Throw (e : error)
| Unmodelled.
Arguments Ok {A} a.
Arguments Throw {A} e.
Arguments Unmodelled {A}.

(** Modelled from the spec: [_.isFunction] ([src/util] is missing): the
    value "is callable". *)
Definition isFunction (v : value) : bool :=
  match v with VFun _ => true | _ => false end.

(** ToBoolean, as used by [!x], [x || y] and [x ? a : b]. *)
Definition truthy (v : value) : bool :=
  match v with
  | VUndefined | VNull => false
  | VBool b => b
  | VNum n => negb (n =? 0)%Z
  | VStr s => match s with EmptyString => false | String _ _ => true end
  | _ => true
  end.


(** [x === global] *)
Definition is_global (v : value) : bool :=
  match v with VGlobal => true | _ => false end.

(** The [this] seen inside a function that is not in strict mode. *)
Definition sloppy_this (v : value) : value :=
  match v with
  | VUndefined | VNull => VGlobal
  | VBool _ | VNum _ | VStr _ => VBoxed v
  | _ => v
  end.

(** [arguments[i]]: reading past the end gives [undefined]. *)
Definition arguments_at (arguments : list value) (i : nat) : value :=
  default VUndefined (arguments !! i).

(** [new Array(len)] for a numeric [len]: a negative length is a RangeError;
    the fresh slots read as [undefined]. *)
Definition new_Array (len : Z) : result (list value) :=
  if (len <? 0)%Z then Throw (RangeError "Invalid array length")
  else Ok (replicate (Z.to_nat len) VUndefined).

(** [arr[i] = v]: writing past the end extends the array. *)
Definition array_set (arr : list value) (i : nat) (v : value) : list value :=
  if decide (i < length arr) then <[i := v]> arr
  else arr ++ replicate (i - length arr) VUndefined ++ [v].

(** The loop [for (...; ++i, ++j) dst[j] = arguments[i]], run [count] times
    from the given [i] and [j]. *)
Fixpoint copy_arguments (count i j : nat) (arguments dst : list value)
  : list value :=
  match count with
  | 0 => dst
  | S count' =>
      copy_arguments count' (S i) (S j) arguments
        (array_set dst j (arguments_at arguments i))
  end.

(** Modelled from the spec: [_.getParamNames] ([src/util] is missing): the
    "declared arity and parameter names" of a function, in order. *)
Definition getParamNames (f : JsFunction) : list string := fn_params f.

(** [f.length] *)
Definition length_of (f : JsFunction) : Z := Z.of_nat (length (fn_params f)).

(** [names.indexOf(x) === -1] *)
Definition indexOf_is_minus1 (names : list string) (x : string) : bool :=
  bool_decide (x ∉ names).

End JS.

(** ** The pipeline: coroutine pool and lock *)
Module Pipeline.
Import JS.

(** The closures that the suspendable functions hand to the pipeline as the
    coroutine body, by the names they have in [asyncBuilder.js], with the
    variables each one closes over.  [body_invokee] is the invokee itself,
    used as the body when it declares no parameters. *)
Inductive Body :=
| b1 (invokee : JsFunction) (self : value) (invokeeArgs : list value)
| b2 (invokee : JsFunction) (params : list value)
| b3 (invokee : JsFunction) (self : value) (params : list value)
| b4 (invokee : JsFunction) (self : value) (invokeeArgs : list value)
| body_invokee (invokee : JsFunction).

Record Coro := {
  co_protocol : nat;
  co_body : Body
}.

Record World := {
  isLocked : bool;
  pool : list nat;
  next_coro : nat;
  bound : gmap nat Coro;
  registered : list value;
  heap : gmap nat (gmap string value)
}.

Definition set_isLocked (flag : bool) (w : World) : World :=
  {| isLocked := flag; pool := pool w; next_coro := next_coro w;
     bound := bound w; registered := registered w; heap := heap w |}.

Definition set_heap (h : gmap nat (gmap string value)) (w : World) : World :=
  {| isLocked := isLocked w; pool := pool w; next_coro := next_coro w;
     bound := bound w; registered := registered w; heap := h |}.

(** Modelled from the spec: [pipeline.acquireCoro] ([src/pipeline] is
    missing).  "Returns an Idle Coroutine Object [...] configured with
    protocol and body, drawing from the pool or allocating fresh if the pool
    is empty." *)
Definition acquireCoro (protocol : nat) (body : Body) (w : World)
  : nat * World :=
  let co := {| co_protocol := protocol; co_body := body |} in
  match pool w with
  | id :: idle =>
      (id, {| isLocked := isLocked w; pool := idle; next_coro := next_coro w;
              bound := <[id := co]> (bound w); registered := registered w;
              heap := heap w |})
  | [] =>
      (next_coro w,
       {| isLocked := isLocked w; pool := []; next_coro := S (next_coro w);
          bound := <[next_coro w := co]> (bound w);
          registered := registered w; heap := heap w |})
  end.

(** Modelled from the spec: [pipeline.releaseCoro] ([src/pipeline] is
    missing).  "Returns a Completed or Failed Coroutine Object to the pool
    after clearing its body/result references." *)
Definition releaseCoro (id : nat) (w : World) : World :=
  {| isLocked := isLocked w; pool := id :: pool w; next_coro := next_coro w;
     bound := delete id (bound w); registered := registered w;
     heap := heap w |}.

(** Modelled from the spec: registering a new default base protocol through
    the top-level configuration mechanism ([asyncawait.use], missing from the
    sources).  "Once locked becomes true [...] attempts to register a new base
    protocol via the top-level configuration mechanism must fail." *)
Definition use (mod_ : value) (w : World) : result unit * World :=
  if isLocked w
  then (Throw (Error "use: cannot alter the pipeline after first async(...) call"), w)
  else (Ok tt,
        {| isLocked := isLocked w; pool := pool w; next_coro := next_coro w;
           bound := bound w; registered := mod_ :: registered w;
           heap := heap w |}).


(** [{}]: a fresh, empty heap object. *)
Definition alloc_object (w : World) : nat * World :=
  let l := fresh (dom (heap w)) in
  (l, set_heap (<[l := ∅]> (heap w)) w).

End Pipeline.

(** ** asyncBuilder.js *)
Module AsyncBuilder.
Import JS Pipeline.

(** Behaviour of the functions that come from outside [asyncBuilder.js], and
    the [DEBUG] constant of [src/util].  What these functions do to the
    pipeline is not modelled: they return a result and nothing else. *)
Class Host := {
  DEBUG : bool;
  (** [protocolFactory(options, baseProtocol)], given the contents of both
      objects; the result is an object literal ([VObj]) or [undefined]. *)
  call_factory :
    JsFunction → gmap string value → gmap string value → result value;
  (** a protocol's [invoke], called with a [this] and an argument list *)
  call_invoke : JsFunction → value → list value → World → result value;
  (** the invokee, called with a [this] and an argument list *)
  call_invokee : JsFunction → value → list value → result value
}.

(** *** Merging properties *)

(** Modelled from the spec: what [_.mergeProps] ([src/util] is missing)
    leaves under a key that both objects have.  "Later keys overwrite earlier
    ones, nested maps are recursively merged one level." *)
Definition merge_value (later earlier : value) : option value :=
  match later, earlier with
  | VObj s, VObj t => Some (VObj (s ∪ t))
  | _, _ => Some later
  end.

(** Modelled from the spec: the properties of the target of [_.mergeProps]
    once a source has been merged into it.  "Merging is shallow." *)
Definition merge_object (target source : gmap string value)
  : gmap string value :=
  union_with merge_value source target.

(** The own properties of a merge source; [undefined] and primitives have
    none. *)
Definition props_of (source : value) (w : World) : gmap string value :=
  match source with
  | VRef l => default ∅ (heap w !! l)
  | VObj props => props
  | _ => ∅
  end.

(** A value that, if it is a reference, refers to an object of the heap. *)
Definition live (w : World) (v : value) : Prop :=
  match v with
  | VRef l => l ∈ dom (heap w)
  | _ => True
  end.

(** Modelled from the spec: [_.mergeProps(target, source)] ([src/util] is
    missing), which updates the object [target] in place. *)
Definition mergeProps (target : nat) (source : value) (w : World) : World :=
  set_heap
    (<[target := merge_object (default ∅ (heap w !! target))
                   (props_of source w)]> (heap w)) w.

(** *** Builders *)

(** An async builder function: the [protocol] and [options] properties tacked
    onto it and the variables that its [derive] method closes over. *)
Record Builder := {
  protocol : nat;
  options : nat;
  protocolFactory : JsFunction;
  baseProtocol : nat
}.

(** The bootstrap protocol's operations. *)
Definition bootstrap_invoke : JsFunction :=
  {| fn_name := "invoke"; fn_params := ["co"]; fn_code := 1 |}.
Definition bootstrap_return : JsFunction :=
  {| fn_name := "return"; fn_params := ["ctx"; "result"]; fn_code := 2 |}.
Definition bootstrap_throw : JsFunction :=
  {| fn_name := "throw"; fn_params := ["ctx"; "error"]; fn_code := 3 |}.
Definition bootstrap_yield : JsFunction :=
  {| fn_name := "yield"; fn_params := ["ctx"; "value"]; fn_code := 4 |}.

Definition bootstrap_protocol : gmap string value :=
  {[ "invoke" := VFun bootstrap_invoke;
     "return" := VFun bootstrap_return;
     "throw" := VFun bootstrap_throw;
     "yield" := VFun bootstrap_yield ]}.

(** [protocol.invoke], read from the protocol object. *)
Definition get_invoke (protocol : nat) (w : World) : result JsFunction :=
  match heap w !! protocol with
  | Some obj =>
      match obj !! "invoke" with
      | Some (VFun f) => Ok f
      | _ => Throw (TypeError "protocol.invoke is not a function")
      end
  | None => Throw (TypeError "protocol.invoke is not a function")
  end.

(** [protocol.invoke], as the synthesis of a suspendable function reads it
    for its [length] and its parameter names.  Reading a property of a
    missing, [undefined] or [null] [invoke] is a type error; the properties
    of other values that are not functions are not embedded. *)
Definition invoke_at_synthesis (protocol : nat) (w : World)
  : result JsFunction :=
  match heap w !! protocol with
  | Some obj =>
      match obj !! "invoke" with
      | Some (VFun f) => Ok f
      | None | Some VUndefined | Some VNull =>
          Throw (TypeError "Cannot read property 'length' of undefined")
      | Some _ => Unmodelled
      end
  | None => Unmodelled
  end.

Section WithHost.
Context {host : Host}.

(** Calling [protocol.invoke] with the given [this]; the bootstrap [invoke]
    always throws. *)
Definition invoke (protocol : nat) (this : value) (args : list value)
    (w : World) : result value * World :=
  match get_invoke protocol w with
  | Throw e => (Throw e, w)
  | Unmodelled => (Unmodelled, w)
  | Ok f =>
      if decide (f = bootstrap_invoke)
      then (Throw (Error "invoke: not supported by this type of suspendable function"), w)
      else (call_invoke f this args w, w)
  end.

(** *** Suspendable functions, generic strategy *)

(** The closure returned by [createSuspendableFunctionSlow], applied to
    [this] and [arguments]. *)
Definition call_slow (protocol : nat) (invokee : JsFunction)
    (invokerArgCount : Z) (this : value) (arguments : list value)
    (w : World) : result value * World :=
  let invokeeArgCount := (Z.of_nat (length arguments) - invokerArgCount)%Z in
  match new_Array invokeeArgCount with
  | Throw e => (Throw e, w)
  | Unmodelled => (Unmodelled, w)
  | Ok invokeeArgs =>
  match new_Array (invokerArgCount + 1) with
  | Throw e => (Throw e, w)
  | Unmodelled => (Unmodelled, w)
  | Ok invokerArgs =>
      let invokeeArgs :=
        copy_arguments (Z.to_nat invokeeArgCount) 0 0 arguments invokeeArgs in
      let invokerArgs :=
        copy_arguments (Z.to_nat invokerArgCount) (Z.to_nat invokeeArgCount) 1
          arguments invokerArgs in
      let self := sloppy_this this in
      let body := b1 invokee self invokeeArgs in
      let '(co, w) := acquireCoro protocol body w in
      let invokerArgs := array_set invokerArgs 0 (VCoro co) in
      invoke protocol VNull invokerArgs w
  end end.

(** *** Suspendable functions, specialized strategy *)

(** The text substituted for each placeholder of [$SUSPENDABLE_TEMPLATE], as
    the structure the evaluated source has. *)
Inductive BodyNoThis :=
| bodyNoThis_invokee
| bodyNoThis_b2 (invokeeArgs : list string).

Record Source := {
  src_name : string;
  src_ARGS : list string;
  src_bodyNoThis : BodyNoThis;
  src_bodyWithThis : list string;
  src_ARGCOUNT : nat;
  src_FASTPATH : list string;
  src_SETUP_INVOKER_ARGS : bool;
  src_CALL_INVOKER_apply : bool
}.

(** The value of the parameter called [name] of a function with parameter
    list [ARGS], applied to [arguments]. *)
Definition param (ARGS : list string) (arguments : list value)
    (name : string) : value :=
  match list_find (λ p, p = name) ARGS with
  | Some (i, _) => arguments_at arguments i
  | None => VUndefined
  end.

(** **** Names in the evaluated source

    The source that is evaluated is the text of [$SUSPENDABLE_TEMPLATE] in
    which [String.prototype.replace] has put, one placeholder after the
    other, the name [suspendable_<invokee.name>], the parameter names and
    the fragments built from them.  The evaluation is embedded for names
    made of ASCII letters, digits and underscores: the inserted text then
    has no dollar sign, so that each [replace] finds the placeholder of the
    template and inserts its text unchanged, and whether the result is
    accepted as strict-mode code depends on the parameter list alone. *)

Definition digit_char (c : ascii) : bool :=
  let n := N_of_ascii c in
  ((48 <=? n) && (n <=? 57))%N.

Definition identifier_char (c : ascii) : bool :=
  let n := N_of_ascii c in
  (digit_char c || (65 <=? n) && (n <=? 90) || (97 <=? n) && (n <=? 122)
   || (n =? 95))%N.

(** The words that are reserved in all code. *)
Definition reserved_words : list string :=
  ["break"; "case"; "catch"; "class"; "const"; "continue"; "debugger";
   "default"; "delete"; "do"; "else"; "enum"; "export"; "extends"; "false";
   "finally"; "for"; "function"; "if"; "import"; "in"; "instanceof"; "new";
   "null"; "return"; "super"; "switch"; "this"; "throw"; "true"; "try";
   "typeof"; "var"; "void"; "while"; "with"].

(** A name that a parameter of a function outside strict mode can have,
    written with ASCII letters, digits and underscores. *)
Definition plain_identifier (name : string) : bool :=
  match String.list_ascii_of_string name with
  | [] => false
  | c :: rest =>
      negb (digit_char c) && forallb identifier_char (c :: rest)
      && bool_decide (name ∉ reserved_words)
  end.

(** The names for which the evaluation is embedded: [name] is the name of the
    evaluated function, [names] its parameter list. *)
Definition embedded_names (name : string) (names : list string) : bool :=
  forallb identifier_char (String.list_ascii_of_string name)
  && forallb plain_identifier names.

(** The words that cannot name a parameter in strict-mode code. *)
Definition strict_reserved_words : list string :=
  ["eval"; "arguments"; "implements"; "interface"; "let"; "package";
   "private"; "protected"; "public"; "static"; "yield"].

(** A parameter list that strict-mode code accepts: no name is repeated and
    none is one of [strict_reserved_words]. *)
Definition strict_parameters (names : list string) : bool :=
  bool_decide (NoDup names)
  && forallb (λ p, bool_decide (p ∉ strict_reserved_words)) names.

(** The identifiers that the template itself uses: its local variables, the
    variables of the enclosing function and of the module that it refers to,
    and the names of its inner functions. *)
Definition template_identifiers : list string :=
  ["self"; "body"; "invokeeArgCount"; "invokeeArgs"; "invokerArgCount";
   "invokerArgs"; "i"; "j"; "co"; "pipeline"; "protocol"; "invokee";
   "global"; "Array"; "b2"; "b3"; "b4"].

(** A parameter that has the name of an identifier of the template takes its
    place in the evaluated function (the parameter [protocol] hides the
    protocol, [var co = ...] overwrites the parameter [co]). *)
Definition captured (names : list string) : bool :=
  existsb (λ p, bool_decide (p ∈ template_identifiers)) names.

(** The names under which the evaluated function is the one that the template
    intends: embedded, accepted by strict mode (so distinct, within and
    between invokee and invoker), and none captured. *)
Definition well_formed_names (invokee invoke_ : JsFunction) : bool :=
  let names := fn_params invokee ++ drop 1 (fn_params invoke_) in
  embedded_names ("suspendable_" +:+ fn_name invokee) names
  && strict_parameters names
  && negb (captured names).

(** [eval('result = ' + source)]: strict-mode code, because the enclosing
    function is.  A parameter list that strict mode rejects is a syntax
    error; otherwise the source evaluates to the function. *)
Definition eval_source (src : Source) : result unit :=
  if negb (embedded_names (src_name src) (src_ARGS src)) then Unmodelled
  else if negb (strict_parameters (src_ARGS src))
  then Throw (SyntaxError "parameter list not allowed in strict mode code")
  else Ok tt.

(** The function obtained by evaluating the substituted template, applied to
    [this] and [arguments] (strict mode: [this] is not coerced).  With a
    captured name the identifiers of the template no longer denote what they
    do here: such a call is not embedded. *)
Definition call_fast (src : Source) (protocol : nat) (invokee : JsFunction)
    (invokerArgCount : Z) (this : value) (arguments : list value)
    (w : World) : result value * World :=
  if captured (src_ARGS src) then (Unmodelled, w) else
  let var := param (src_ARGS src) arguments in
  let self := this in
  let body :=
    if negb (truthy this) || is_global this
    then match src_bodyNoThis src with
         | bodyNoThis_invokee => body_invokee invokee
         | bodyNoThis_b2 invokeeArgs => b2 invokee (var <$> invokeeArgs)
         end
    else b3 invokee self (var <$> src_bodyWithThis src) in
  if bool_decide (length arguments = src_ARGCOUNT src) then
    let '(co, w) := acquireCoro protocol body w in
    invoke protocol (VRef protocol) (VCoro co :: (var <$> src_FASTPATH src)) w
  else
    let invokeeArgCount :=
      (Z.of_nat (length arguments) - invokerArgCount)%Z in
    match new_Array invokeeArgCount with
    | Throw e => (Throw e, w)
    | Unmodelled => (Unmodelled, w)
    | Ok invokeeArgs =>
    let invokeeArgs :=
      copy_arguments (Z.to_nat invokeeArgCount) 0 0 arguments invokeeArgs in
    match (if src_SETUP_INVOKER_ARGS src
           then match new_Array (invokerArgCount + 1) with
                | Throw e => Throw e
                | Unmodelled => Unmodelled
                | Ok invokerArgs =>
                    Ok (copy_arguments (Z.to_nat invokerArgCount)
                          (Z.to_nat invokeeArgCount) 1 arguments invokerArgs)
                end
           else Ok []) with
    | Throw e => (Throw e, w)
    | Unmodelled => (Unmodelled, w)
    | Ok invokerArgs =>
        let body := b4 invokee self invokeeArgs in
        let '(co, w) := acquireCoro protocol body w in
        if src_CALL_INVOKER_apply src
        then
          let invokerArgs := array_set invokerArgs 0 (VCoro co) in
          invoke protocol VNull invokerArgs w
        else invoke protocol (VRef protocol) [VCoro co] w
    end end.

(** The suspendable functions, as closures. *)
Inductive Suspendable :=
| suspendable (protocol : nat) (invokee : JsFunction) (invokerArgCount : Z)
| suspendable_eval (src : Source) (protocol : nat) (invokee : JsFunction)
    (invokerArgCount : Z).

Definition call (f : Suspendable) (this : value) (arguments : list value)
    (w : World) : result value * World :=
  match f with
  | suspendable protocol invokee invokerArgCount =>
      call_slow protocol invokee invokerArgCount this arguments w
  | suspendable_eval src protocol invokee invokerArgCount =>
      call_fast src protocol invokee invokerArgCount this arguments w
  end.

(** [f.length]: the generic closure is declared as [suspendable($ARGS)]. *)
Definition suspendable_length (f : Suspendable) : nat :=
  match f with
  | suspendable _ _ _ => 1
  | suspendable_eval src _ _ _ => length (src_ARGS src)
  end.

Definition createSuspendableFunctionSlow (protocol : nat)
    (invokee : JsFunction) (options : nat) (w : World)
  : result Suspendable :=
  match invoke_at_synthesis protocol w with
  | Throw e => Throw e
  | Unmodelled => Unmodelled
  | Ok invoke_ =>
      let invokerArgCount := (length_of invoke_ - 1)%Z in
      Ok (suspendable protocol invokee invokerArgCount)
  end.

(** The loop that looks for a parameter name of the invokee among the
    invoker's. *)
Fixpoint check_param_names (invokerParamNames invokeeParamNames : list string)
  : result unit :=
  match invokeeParamNames with
  | [] => Ok tt
  | paramName :: rest =>
      if indexOf_is_minus1 invokerParamNames paramName
      then check_param_names invokerParamNames rest
      else Throw (Error ("async builder: invoker and invokee both have a parameter named '"
                         +:+ paramName +:+ "'"))
  end.

Definition createSuspendableFunctionFast (protocol : nat)
    (invokee : JsFunction) (options : nat) (w : World)
  : result Suspendable :=
  match invoke_at_synthesis protocol w with
  | Throw e => Throw e
  | Unmodelled => Unmodelled
  | Ok invoke_ =>
      let invokerArgCount := (length_of invoke_ - 1)%Z in
      let invokerParamNames := drop 1 (getParamNames invoke_) in
      let invokeeParamNames := getParamNames invokee in
      let bodyNoThis :=
        if bool_decide (length invokeeParamNames = 0) then bodyNoThis_invokee
        else bodyNoThis_b2 invokeeParamNames in
      let bodyWithThis := invokeeParamNames in
      let SETUP_INVOKER_ARGS := negb (invokerArgCount =? 0)%Z in
      let CALL_INVOKER_apply := negb (invokerArgCount =? 0)%Z in
      match check_param_names invokerParamNames invokeeParamNames with
      | Throw e => Throw e
      | Unmodelled => Unmodelled
      | Ok _ =>
          let allParamNames := invokeeParamNames ++ invokerParamNames in
          let ARGCOUNT := length allParamNames in
          let source :=
            {| src_name := "suspendable_" +:+ fn_name invokee;
               src_ARGS := allParamNames;
               src_bodyNoThis := bodyNoThis;
               src_bodyWithThis := bodyWithThis;
               src_ARGCOUNT := ARGCOUNT;
               src_FASTPATH := invokerParamNames;
               src_SETUP_INVOKER_ARGS := SETUP_INVOKER_ARGS;
               src_CALL_INVOKER_apply := CALL_INVOKER_apply |} in
          match eval_source source with
          | Throw e => Throw e
          | Unmodelled => Unmodelled
          | Ok _ => Ok (suspendable_eval source protocol invokee invokerArgCount)
          end
      end
  end.

Definition createSuspendableFunction :=
  if DEBUG then createSuspendableFunctionSlow
  else createSuspendableFunctionFast.

(** *** The builder function and its [derive] method *)

(** [createAsyncBuilder(protocolFactory, options, baseProtocol)].  The
    arguments of [_.mergeProps({}, baseProtocol, protocolFactory(...))] are
    evaluated left to right: the fresh object first, then the factory call. *)
Definition createAsyncBuilder (protocolFactory : JsFunction) (options : nat)
    (baseProtocol : nat) (w : World) : result Builder * World :=
  let '(protocol, w) := alloc_object w in
  match call_factory protocolFactory (props_of (VRef options) w)
          (props_of (VRef baseProtocol) w) with
  | Throw e => (Throw e, w)
  | Unmodelled => (Unmodelled, w)
  | Ok overrides =>
      let w := mergeProps protocol (VRef baseProtocol) w in
      let w := mergeProps protocol overrides w in
      (Ok {| protocol := protocol; options := options;
             protocolFactory := protocolFactory;
             baseProtocol := baseProtocol |}, w)
  end.

(** [builder.derive(...)] *)
Definition derive (builder : Builder) (arguments : list value) (w : World)
  : result Builder * World :=
  let len := length arguments in
  if negb (bool_decide (0 < len))
  then (Throw (AssertionError "derive(): expected at least one argument"), w)
  else
    let arg0 := arguments_at arguments 0 in
    let hasProtocolFactory := isFunction arg0 in
    if negb (hasProtocolFactory || bool_decide (len = 1))
    then (Throw (AssertionError "derive(): invalid argument combination"), w)
    else
      let '(opts, w) := alloc_object w in
      let w :=
        if negb hasProtocolFactory
        then mergeProps opts (VRef (options builder)) w else w in
      let w :=
        mergeProps opts
          (if hasProtocolFactory then arguments_at arguments 1 else arg0) w in
      let newProtocolFactory :=
        match arg0 with
        | VFun f => f
        | _ => protocolFactory builder
        end in
      let newBaseProtocol :=
        if hasProtocolFactory then protocol builder
        else baseProtocol builder in
      createAsyncBuilder newProtocolFactory opts newBaseProtocol w.

(** Calling the builder function [asyncBuilder(invokee)] with the given
    argument list. *)
Definition asyncBuilder (builder : Builder) (arguments : list value)
    (w : World) : result Suspendable * World :=
  let w := set_isLocked true w in
  if negb (bool_decide (length arguments = 1))
  then (Throw (AssertionError "async builder: expected a single argument"), w)
  else
    match arguments_at arguments 0 with
    | VFun invokee =>
        (createSuspendableFunction (protocol builder) invokee
           (options builder) w, w)
    | _ =>
        (Throw (AssertionError "async builder: expected argument to be a function"), w)
    end.

(** *** Coroutine bodies *)

(** Running a coroutine body.  [b1] drops what the invokee returns; the body
    that is the invokee itself is run by the coroutine without arguments. *)
Definition run_body (body : Body) : result value :=
  match body with
  | b1 invokee self invokeeArgs =>
      match call_invokee invokee self invokeeArgs with
      | Ok _ => Ok VUndefined
      | Throw e => Throw e
      | Unmodelled => Unmodelled
      end
  | b2 invokee params => call_invokee invokee VUndefined params
  | b3 invokee self params => call_invokee invokee self params
  | b4 invokee self invokeeArgs => call_invokee invokee self invokeeArgs
  | body_invokee invokee => call_invokee invokee VUndefined []
  end.

(** What a body passes to the invokee. *)
Definition body_args (body : Body) : list value :=
  match body with
  | b1 _ _ invokeeArgs | b4 _ _ invokeeArgs => invokeeArgs
  | b2 _ params | b3 _ _ params => params
  | body_invokee _ => []
  end.

Definition body_fn (body : Body) : JsFunction :=
  match body with
  | b1 f _ _ | b2 f _ | b3 f _ _ | b4 f _ _ | body_invokee f => f
  end.

(** The [this] that a body calls the invokee with ([undefined] for a plain
    call). *)
Definition body_this (body : Body) : value :=
  match body with
  | b1 _ self _ | b3 _ self _ | b4 _ self _ => self
  | b2 _ _ | body_invokee _ => VUndefined
  end.

(** *** Operations on a pipeline *)

(** Everything that a program can do with the pipeline through this module:
    build, derive, call a suspendable function, release a coroutine, and try
    to register a new default base protocol. *)
Inductive Op :=
| OpBuild (builder : Builder) (arguments : list value)
| OpDerive (builder : Builder) (arguments : list value)
| OpCall (f : Suspendable) (this : value) (arguments : list value)
| OpRelease (co : nat)
| OpUse (mod_ : value).

Definition exec (op : Op) (w : World) : World :=
  match op with
  | OpBuild builder arguments => (asyncBuilder builder arguments w).2
  | OpDerive builder arguments => (derive builder arguments w).2
  | OpCall f this arguments => (call f this arguments w).2
  | OpRelease co => releaseCoro co w
  | OpUse mod_ => (use mod_ w).2
  end.

Definition exec_all (ops : list Op) (w : World) : World :=
  foldl (λ w op, exec op w) w ops.

End WithHost.
End AsyncBuilder.

(** ** UNIFY/async/patterns/iterable.cps.js *)
Module IterableCps.
Import JS.

(** The body run by the coroutine, as the iterator can observe it: the values
    it yields, in order, and how it ends.  Errors are [Error] objects. *)
Inductive Ending :=
| Returns (result : value)
| Throws (error : error).

Record Script := {
  yields : list value;
  ending : Ending
}.

(** The functions that receive results: [nullFunc], a value supplied by the
    consumer, and the closure [function (err, item) {...}] that [stepNext]
    creates inside [forEach] (over [callback] and [done]). *)
Inductive Fn :=
| nullFunc
| Given (f : value).

Inductive Callback :=
| Plain (f : Fn)
| StepCallback (callback : value) (done : Fn).

(** [f || nullFunc] *)
Definition or_nullFunc (f : value) : Fn :=
  if truthy f then Given f else nullFunc.

(** The closures handed to [setImmediate]. *)
Inductive Task :=
| invokeNext_task (callback : Callback)
| stepNext (callback : value) (done : Fn).

(** What the consumer can observe: calls of the functions it supplied, and
    exceptions that nothing catches. *)
Inductive Event :=
| Called (f : JsFunction) (args : list value)
| Uncaught (e : error).

(** An [IterableCpsCoro]: its own fields [done] and [nextCallback], and
    [fiber], the part of the body that has not run yet ([None] once the body
    has returned or thrown). *)
Record IterableCpsCoro := {
  done : bool;
  nextCallback : option Callback;
  fiber : option Script
}.

Record State := {
  iterable : IterableCpsCoro;
  immediates : list Task;
  trace : list Event
}.

Definition set_iterable (co : IterableCpsCoro) (s : State) : State :=
  {| iterable := co; immediates := immediates s; trace := trace s |}.

Definition log (e : Event) (s : State) : State :=
  {| iterable := iterable s; immediates := immediates s;
     trace := trace s ++ [e] |}.

(** [setImmediate(task)] *)
Definition setImmediate (t : Task) (s : State) : State :=
  {| iterable := iterable s; immediates := immediates s ++ [t];
     trace := trace s |}.

(** [{ done: d, value: v }] *)
Definition item (d : bool) (v : value) : value :=
  VObj {[ "done" := VBool d; "value" := v ]}.

(** Calling a value: a function supplied by the consumer is recorded in the
    trace; anything else is not callable. *)
Definition call_value (f : value) (args : list value) (s : State) : State :=
  match f with
  | VFun fn => log (Called fn args) s
  | _ => log (Uncaught (TypeError "is not a function")) s
  end.

Definition call_fn (f : Fn) (args : list value) (s : State) : State :=
  match f with
  | nullFunc => s
  | Given v => call_value v args s
  end.

(** The events that a call of [f] adds to the trace. *)
Definition fn_events (f : Fn) (args : list value) : list Event :=
  match f with
  | nullFunc => []
  | Given (VFun fn) => [Called fn args]
  | Given _ => [Uncaught (TypeError "is not a function")]
  end.

(** [stepResolved(item)] inside [forEach] *)
Definition stepResolved (callback : value) (done : Fn) (item : value)
    (s : State) : State :=
  match item with
  | VObj props =>
      if truthy (default VUndefined (props !! "done"))
      then call_fn done [VNull; default VUndefined (props !! "value")] s
      else
        let s := call_value callback [default VUndefined (props !! "value")] s in
        setImmediate (stepNext callback done) s
  | _ => log (Uncaught (TypeError "Cannot read property 'done'")) s
  end.

Definition call_callback (cb : Callback) (args : list value) (s : State)
  : State :=
  match cb with
  | Plain f => call_fn f args s
  | StepCallback callback done =>
      let err := arguments_at args 0 in
      let item := arguments_at args 1 in
      if truthy err then call_fn done [err] s
      else stepResolved callback done item s
  end.

(** [this.nextCallback(...)] *)
Definition call_nextCallback (args : list value) (s : State) : State :=
  match nextCallback (iterable s) with
  | Some cb => call_callback cb args s
  | None => log (Uncaught (TypeError "nextCallback is not a function")) s
  end.

(** [IterableCpsCoro.prototype.invoke]: binds the body, which does not start
    to run, and returns the iterator. *)
Definition invoke (func : Script) : State :=
  {| iterable := {| done := false; nextCallback := None; fiber := Some func |};
     immediates := []; trace := [] |}.

(** [IterableCpsCoro.prototype.invokeNext] *)
Definition invokeNext (callback : Callback) (s : State) : State :=
  let co := iterable s in
  let s :=
    set_iterable {| done := done co; nextCallback := Some callback;
                    fiber := fiber co |} s in
  setImmediate (invokeNext_task callback) s.

(** [IterableCpsCoro.prototype.return] *)
Definition return_ (result : value) (s : State) : State :=
  let co := iterable s in
  let s :=
    set_iterable {| done := true; nextCallback := nextCallback co;
                    fiber := fiber co |} s in
  call_nextCallback [VNull; item true result] s.

(** [IterableCpsCoro.prototype.throw] *)
Definition throw (error : error) (s : State) : State :=
  call_nextCallback [VError error] s.

(** [IterableCpsCoro.prototype.yield]; [this.suspend()] hands control back to
    whoever resumed the coroutine. *)
Definition yield (v : value) (s : State) : State :=
  let result := item false v in
  call_nextCallback [VNull; result] s.

(** Modelled from the spec: [Coro.prototype.resume] (the base class
    [../coro] is missing).  The body runs up to its next [yield], or to its
    end: "[yield] may be called zero or more times while Running, each causing
    a transition to Suspended [...]; exactly one of [return] or [throw] is
    eventually called, causing a terminal transition."  A body that has
    already ended has nothing left to run. *)
Definition resume (s : State) : State :=
  let co := iterable s in
  match fiber co with
  | None => s
  | Some func =>
      match yields func with
      | v :: rest =>
          yield v
            (set_iterable
               {| done := done co; nextCallback := nextCallback co;
                  fiber := Some {| yields := rest; ending := ending func |} |}
               s)
      | [] =>
          let s :=
            set_iterable {| done := done co; nextCallback := nextCallback co;
                            fiber := None |} s in
          match ending func with
          | Returns result => return_ result s
          | Throws error => throw error s
          end
      end
  end.

(** [AsyncIterator.prototype.next] *)
Definition next (arguments : list value) (s : State) : State :=
  let callback := arguments_at arguments 0 in
  invokeNext (Plain (or_nullFunc callback)) s.

(** [AsyncIterator.prototype.forEach]; the call [stepNext()] at its end runs
    at once, and passes [next] a closure, which is truthy. *)
Definition forEach (arguments : list value) (s : State)
  : result unit * State :=
  let callback := arguments_at arguments 0 in
  let done_ := arguments_at arguments 1 in
  if bool_decide (length arguments < 1)
  then (Throw (Error "forEach(): expected at least one argument"), s)
  else if negb (isFunction callback)
  then (Throw (Error "forEach(): expected argument to be a function"), s)
  else
    let done := or_nullFunc done_ in
    (Ok tt, invokeNext (StepCallback callback done) s).

(** Running one task of the [setImmediate] queue. *)
Definition run_task (t : Task) (s : State) : State :=
  match t with
  | invokeNext_task callback =>
      if done (iterable s)
      then call_callback callback [VError (Error "iterated past end")] s
      else resume s
  | stepNext callback done => invokeNext (StepCallback callback done) s
  end.

(** The event loop: runs queued tasks in order, at most [fuel] of them. *)
Fixpoint run (fuel : nat) (s : State) : State :=
  match fuel with
  | 0 => s
  | S fuel' =>
      match immediates s with
      | [] => s
      | t :: rest =>
          run fuel'
            (run_task t
               {| iterable := iterable s; immediates := rest;
                  trace := trace s |})
      end
  end.

(** How the outcome of a body reaches a callback. *)
Definition outcome_args (e : Ending) : list value :=
  match e with
  | Returns result => [VNull; item true result]
  | Throws error => [VError error]
  end.

(** How [forEach] hands the outcome to its [done] callback: [done(err)] or
    [done(null, item.value)]. *)
Definition done_args (e : Ending) : list value :=
  match e with
  | Returns result => [VNull; result]
  | Throws error => [VError error]
  end.

(** What the closure [function (err, item) {...}], which [stepNext] hands to
    [next] inside [forEach(callback, done)], makes of a delivery
    [(err, item)] of the iterator: [done(err)], [done(null, item.value)] or
    [callback(item.value)]. *)
Definition forwarded (callback done_ : JsFunction) (delivery : Event)
  : Event :=
  match delivery with
  | Called _ args =>
      let err := arguments_at args 0 in
      let item := arguments_at args 1 in
      if truthy err then Called done_ [err]
      else
        match item with
        | VObj props =>
            if truthy (default VUndefined (props !! "done"))
            then Called done_ [VNull; default VUndefined (props !! "value")]
            else Called callback [default VUndefined (props !! "value")]
        | _ => Uncaught (TypeError "Cannot read property 'done'")
        end
  | Uncaught e => Uncaught e
  end.



(** A consumer that calls [next] with each of [callbacks] in turn
    ([undefined]: no callback), and lets the event loop run before the
    following call. *)
Definition drive (fuel : nat) (callbacks : list value) (s : State) : State :=
  foldl (λ s callback, run fuel (next [callback] s)) s callbacks.

End IterableCps.

(** ** Concrete protocols, invokees and worlds *)
Module Examples.
Import JS Pipeline AsyncBuilder.

(** A continuation-passing protocol: [invoke(co, callback)]. *)
Definition cps_invoke : JsFunction :=
  {| fn_name := "invoke"; fn_params := ["co"; "callback"]; fn_code := 10 |}.

Definition cps_factory : JsFunction :=
  {| fn_name := "cps"; fn_params := ["options"; "baseProtocol"];
     fn_code := 11 |}.

Definition thunk_factory : JsFunction :=
  {| fn_name := "thunk"; fn_params := ["options"; "baseProtocol"];
     fn_code := 12 |}.

(** [function add(a, b) {...}] *)
Definition add : JsFunction :=
  {| fn_name := "add"; fn_params := ["a"; "b"]; fn_code := 20 |}.

(** [function notify(callback) {...}]: shares a name with [cps_invoke]. *)
Definition notify : JsFunction :=
  {| fn_name := "notify"; fn_params := ["callback"]; fn_code := 21 |}.

(** A host in which every factory installs [cps_invoke], [invoke] returns its
    handle and invokees return their first argument. *)
Definition example_host (debug : bool) : Host :=
  {| DEBUG := debug;
     call_factory := λ _ _ _, Ok (VObj {[ "invoke" := VFun cps_invoke ]});
     call_invoke := λ _ _ args _, Ok (arguments_at args 0);
     call_invokee := λ _ _ args, Ok (arguments_at args 0) |}.

(** Objects 0 and 1: the bootstrap protocol and options; 2 and 3: the protocol
    and options of [example_builder]; 4: a configuration map. *)
Definition example_heap : gmap nat (gmap string value) :=
  {[ 0 := bootstrap_protocol;
     1 := ∅;
     2 := <["invoke" := VFun cps_invoke]> bootstrap_protocol;
     3 := {[ "timeout" := VNum 100; "retries" := VNum 2 ]};
     4 := {[ "timeout" := VNum 250 ]} ]}.

Definition example_world : World :=
  {| isLocked := false; pool := []; next_coro := 0; bound := ∅;
     registered := []; heap := example_heap |}.

Definition example_builder : Builder :=
  {| protocol := 2; options := 3; protocolFactory := cps_factory;
     baseProtocol := 0 |}.

(** Consumer functions and bodies for the iterable protocol. *)
Definition collect : JsFunction :=
  {| fn_name := "collect"; fn_params := ["val"]; fn_code := 30 |}.

Definition finished : JsFunction :=
  {| fn_name := "finished"; fn_params := ["err"; "result"]; fn_code := 31 |}.

Definition again : JsFunction :=
  {| fn_name := "again"; fn_params := ["err"; "result"]; fn_code := 32 |}.

(** The body of the tests' [foo] called with 4: yields 111, 222, 333, 444 and
    returns ['done']. *)
Definition four_values : IterableCps.Script :=
  {| IterableCps.yields := [VNum 111; VNum 222; VNum 333; VNum 444];
     IterableCps.ending := IterableCps.Returns (VStr "done") |}.

(** The body of [foo] called with 20: throws before it yields. *)
Definition out_of_range : IterableCps.Script :=
  {| IterableCps.yields := [];
     IterableCps.ending := IterableCps.Throws (Error "out of range") |}.

End Examples.

(** ** The bootstrap builder and async/index.js *)
Module Api.
Import JS Pipeline AsyncBuilder.

(** [_.empty], the protocol factory of the bootstrap builder ([src/util] is
    missing): a function descriptor; what the factory returns is up to the
    [Host]. *)
Definition empty : JsFunction :=
  {| fn_name := "empty"; fn_params := []; fn_code := 0 |}.

(** An object literal with properties: a fresh heap object that holds them. *)
Definition alloc_literal (props : gmap string value) (w : World)
  : nat * World :=
  let l := fresh (dom (heap w)) in
  (l, set_heap (<[l := props]> (heap w)) w).

(** Two pipeline states that differ at most in their heaps. *)
Definition same_pipeline (w w' : World) : Prop :=
  isLocked w' = isLocked w ∧ pool w' = pool w ∧ next_coro w' = next_coro w
  ∧ bound w' = bound w ∧ registered w' = registered w.

Section WithHost.
Context {host : Host}.

(** The module-level
    [var asyncBuilder = createAsyncBuilder(_.empty, {}, {invoke: ..., ...})]:
    the two literals are evaluated in order, then the call. *)
Definition bootstrap (w : World) : result Builder * World :=
  let '(options, w) := alloc_object w in
  let '(baseProtocol, w) := alloc_literal bootstrap_protocol w in
  createAsyncBuilder empty options baseProtocol w.

(** [api(invokee)] of [async/index.js].  [config.options().defaults.async]
    ([src/config] is missing) is the parameter [defaults_async], [None] when
    it is [undefined]; [asyncBuilder_] is the builder that [asyncBuilder.js]
    exports. *)
Definition api (defaults_async : option Builder) (asyncBuilder_ : Builder)
    (arguments : list value) (w : World) : result Suspendable * World :=
  if negb (bool_decide (length arguments = 1))
  then (Throw (AssertionError "async: expected a single argument"), w)
  else
    let invokee := arguments_at arguments 0 in
    let async := default asyncBuilder_ defaults_async in
    asyncBuilder async [invokee] w.

End WithHost.
End Api.

(** ** What a consumer does with an iterator *)
Module Consumer.
Import JS IterableCps.

(** A call of [next], a call of [forEach], or some turns of the event
    loop. *)
Inductive Action :=
| CallNext (arguments : list value)
| CallForEach (arguments : list value)
| Turns (fuel : nat).

Definition perform (a : Action) (s : State) : State :=
  match a with
  | CallNext arguments => next arguments s
  | CallForEach arguments => (forEach arguments s).2
  | Turns fuel => run fuel s
  end.

Definition perform_all (actions : list Action) (s : State) : State :=
  foldl (λ s a, perform a s) s actions.

Definition is_call (a : Action) : bool :=
  match a with
  | Turns _ => false
  | _ => true
  end.

End Consumer.

(** ** More concrete protocols, invokees and worlds *)
Module MoreExamples.
Import JS Pipeline AsyncBuilder Api.

(** [function relay(a, callback, b) {...}] *)
Definition relay : JsFunction :=
  {| fn_name := "relay"; fn_params := ["a"; "callback"; "b"]; fn_code := 22 |}.

(** [function twice(x, x) {...}]: accepted outside strict mode. *)
Definition twice : JsFunction :=
  {| fn_name := "twice"; fn_params := ["x"; "x"]; fn_code := 23 |}.




(** An [invoke] that declares no parameter and reads its [arguments]. *)
Definition handleless_invoke : JsFunction :=
  {| fn_name := "invoke"; fn_params := []; fn_code := 13 |}.

(** A host whose [_.empty] factory returns nothing. *)
Definition plain_host : Host :=
  {| DEBUG := false;
     call_factory := λ f _ _,
       if decide (f = empty) then Ok VUndefined
       else Ok (VObj {[ "invoke" := VFun Examples.cps_invoke ]});
     call_invoke := λ _ _ args _, Ok (arguments_at args 0);
     call_invokee := λ _ _ args, Ok (arguments_at args 0) |}.

Definition empty_world : World :=
  {| isLocked := false; pool := []; next_coro := 0; bound := ∅;
     registered := []; heap := ∅ |}.

(** Object 0: a protocol whose [invoke] is [handleless_invoke]; object 1: its
    options. *)
Definition handleless_world : World :=
  {| isLocked := false; pool := []; next_coro := 0; bound := ∅;
     registered := [];
     heap := {[ 0 := <["invoke" := VFun handleless_invoke]> bootstrap_protocol;
                1 := ∅ ]} |}.

End MoreExamples.

(** ** Properties of asyncBuilder.js *)
Module AsyncBuilderSpec.
Import JS Pipeline AsyncBuilder Examples MoreExamples.

#[local] Arguments captured : simpl never.
#[local] Arguments strict_parameters : simpl never.
#[local] Arguments embedded_names : simpl never.

Lemma array_set_in_range arr i v :
  i < length arr → array_set arr i v = <[i := v]> arr.
Proof. intros Hi. unfold array_set. by rewrite decide_True. Qed.

Lemma copy_arguments_spec count : ∀ i j arguments dst,
  j + count ≤ length dst →
  copy_arguments count i j arguments dst =
    take j dst ++ (arguments_at arguments <$> seq i count)
    ++ drop (j + count) dst.
Proof.
  induction count as [|count IH]; intros i j arguments dst Hlen; simpl.
  - rewrite Nat.add_0_r. by rewrite take_drop.
  - rewrite array_set_in_range by lia.
    rewrite IH by (rewrite length_insert; lia).
    rewrite take_insert_lt by lia.
    rewrite drop_insert_lt by lia.
    destruct (lookup_lt_is_Some_2 dst j) as [x Hx]; [lia|].
    rewrite (take_S_r _ _ x) by done.
    rewrite insert_app_r_alt by (rewrite length_take; lia).
    rewrite length_take. replace (j - j `min` length dst) with 0 by lia.
    simpl. rewrite <- app_assoc. simpl.
    by replace (j + S count) with (S (j + count)) by lia.
Qed.

Lemma arguments_at_seq arguments i n :
  i + n ≤ length arguments →
  arguments_at arguments <$> seq i n = take n (drop i arguments).
Proof.
  revert i. induction n as [|n IH]; intros i Hlen; simpl.
  - by rewrite take_0.
  - destruct (lookup_lt_is_Some_2 arguments i) as [x Hx]; [lia|].
    rewrite (drop_S _ _ _ Hx). simpl. rewrite IH by lia.
    unfold arguments_at at 1. by rewrite Hx.
Qed.

Lemma new_Array_ok len :
  (0 ≤ len)%Z → new_Array len = Ok (replicate (Z.to_nat len) VUndefined).
Proof. intros Hlen. unfold new_Array. by rewrite (proj2 (Z.ltb_ge _ _)). Qed.

Lemma new_Array_negative len :
  (len < 0)%Z → new_Array len = Throw (RangeError "Invalid array length").
Proof. intros Hlen. unfold new_Array. by rewrite (proj2 (Z.ltb_lt _ _)). Qed.

(** The two loops of the generic marshalling, on fresh arrays. *)
Lemma invokeeArgs_spec arguments n :
  n ≤ length arguments →
  copy_arguments n 0 0 arguments (replicate n VUndefined) = take n arguments.
Proof.
  intros Hn. rewrite copy_arguments_spec by (rewrite length_replicate; lia).
  rewrite take_0, drop_ge by (rewrite length_replicate; lia).
  simpl. rewrite app_nil_r. rewrite arguments_at_seq by lia. by rewrite drop_0.
Qed.

Lemma invokerArgs_spec arguments n k co :
  n + k = length arguments →
  array_set (copy_arguments k n 1 arguments (replicate (S k) VUndefined)) 0 co
  = co :: drop n arguments.
Proof.
  intros Hn. rewrite copy_arguments_spec by (rewrite length_replicate; lia).
  rewrite drop_ge by (rewrite length_replicate; lia).
  rewrite app_nil_r. simpl. rewrite arguments_at_seq by lia.
  rewrite take_ge by (rewrite length_drop; lia).
  done.
Qed.

Section Calls.
Context {host : Host}.

Lemma call_slow_too_few protocol invokee invokerArgCount this arguments w :
  (Z.of_nat (length arguments) < invokerArgCount)%Z →
  call_slow protocol invokee invokerArgCount this arguments w
  = (Throw (RangeError "Invalid array length"), w).
Proof.
  intros Hfew. unfold call_slow. by rewrite new_Array_negative by lia.
Qed.

Lemma call_slow_spec protocol invokee invokerArgCount this arguments w :
  (0 ≤ invokerArgCount ≤ Z.of_nat (length arguments))%Z →
  let n := Z.to_nat (Z.of_nat (length arguments) - invokerArgCount) in
  call_slow protocol invokee invokerArgCount this arguments w
  = let '(co, w') :=
      acquireCoro protocol (b1 invokee (sloppy_this this) (take n arguments)) w
    in invoke protocol VNull (VCoro co :: drop n arguments) w'.
Proof.
  intros Hk n. unfold call_slow.
  rewrite !new_Array_ok by lia.
  fold n. rewrite invokeeArgs_spec by lia.
  destruct (acquireCoro _ _ _) as [co w'].
  replace (Z.to_nat (invokerArgCount + 1)) with (S (Z.to_nat invokerArgCount))
    by lia.
  by rewrite invokerArgs_spec by lia.
Qed.

Lemma param_lookup names arguments i x :
  NoDup names → names !! i = Some x →
  param names arguments x = arguments_at arguments i.
Proof.
  intros Hnd Hi. unfold param.
  destruct (list_find (λ p, p = x) names) as [[j y]|] eqn:Hfind.
  - apply list_find_Some in Hfind as (Hj & -> & _).
    by rewrite (NoDup_lookup _ _ _ _ Hnd Hj Hi).
  - apply list_find_None in Hfind.
    rewrite Forall_forall in Hfind.
    exfalso. apply (Hfind x); [|done]. by eapply list_elem_of_lookup_2.
Qed.

Lemma param_app_l invokee_ invoker_ arguments :
  NoDup (invokee_ ++ invoker_) →
  param (invokee_ ++ invoker_) arguments <$> invokee_
  = arguments_at arguments <$> seq 0 (length invokee_).
Proof.
  intros Hnd. apply list_eq. intros i.
  rewrite !list_lookup_fmap.
  destruct (invokee_ !! i) as [x|] eqn:Hi; simpl.
  - rewrite lookup_seq_lt by (by eapply lookup_lt_Some). simpl.
    f_equal. apply param_lookup; [done|]. by apply lookup_app_l_Some.
  - rewrite lookup_seq_ge; [done|]. by apply lookup_ge_None.
Qed.

Lemma param_app_r invokee_ invoker_ arguments :
  NoDup (invokee_ ++ invoker_) →
  param (invokee_ ++ invoker_) arguments <$> invoker_
  = arguments_at arguments <$> seq (length invokee_) (length invoker_).
Proof.
  intros Hnd. apply list_eq. intros i.
  rewrite !list_lookup_fmap.
  destruct (invoker_ !! i) as [x|] eqn:Hi; simpl.
  - rewrite lookup_seq_lt by (by eapply lookup_lt_Some). simpl.
    f_equal. apply param_lookup; [done|].
    rewrite lookup_app_r by lia.
    by replace (length invokee_ + i - length invokee_) with i by lia.
  - rewrite lookup_seq_ge; [done|]. by apply lookup_ge_None.
Qed.

Lemma check_param_names_disjoint invokerParamNames invokeeParamNames :
  Forall (λ p, p ∉ invokerParamNames) invokeeParamNames →
  check_param_names invokerParamNames invokeeParamNames = Ok tt.
Proof.
  induction 1 as [|p ps Hp _ IH]; simpl; [done|].
  unfold indexOf_is_minus1. by rewrite bool_decide_eq_true_2.
Qed.

Lemma check_param_names_shared invokerParamNames invokeeParamNames :
  Exists (λ p, p ∈ invokerParamNames) invokeeParamNames →
  ∃ p, p ∈ invokeeParamNames ∧ p ∈ invokerParamNames ∧
    check_param_names invokerParamNames invokeeParamNames
    = Throw (Error ("async builder: invoker and invokee both have a parameter named '"
                    +:+ p +:+ "'")).
Proof.
  induction invokeeParamNames as [|q qs IH]; intros Hex.
  - by apply Exists_nil in Hex.
  - simpl. unfold indexOf_is_minus1.
    destruct (decide (q ∈ invokerParamNames)) as [Hq|Hq].
    + exists q. rewrite bool_decide_eq_false_2 by tauto.
      split; [left|done].
    + rewrite bool_decide_eq_true_2 by done.
      apply Exists_cons in Hex as [Hex|Hex]; [done|].
      destruct (IH Hex) as (p & Hp1 & Hp2 & Heq).
      exists p. split; [by right|done].
Qed.

Lemma NoDup_app_disjoint (ps qs : list string) :
  NoDup (ps ++ qs) → Forall (λ p, p ∉ qs) ps.
Proof.
  intros Hnd. apply NoDup_app in Hnd as (_ & Hdis & _).
  apply Forall_forall. intros x Hx. by apply Hdis.
Qed.

Lemma sloppy_this_object this :
  sloppy_this this = this → truthy this = true.
Proof. by destruct this. Qed.

Lemma get_invoke_at_synthesis protocol w inv :
  get_invoke protocol w = Ok inv → invoke_at_synthesis protocol w = Ok inv.
Proof.
  unfold get_invoke, invoke_at_synthesis.
  destruct (heap w !! protocol) as [obj|]; [|done].
  by destruct (obj !! "invoke") as [[]|].
Qed.

Lemma strict_parameters_NoDup names :
  strict_parameters names = true → NoDup names.
Proof.
  unfold strict_parameters. intros [Hnd _]%andb_true_iff.
  by apply bool_decide_eq_true in Hnd.
Qed.

Lemma well_formed_names_inv invokee inv :
  well_formed_names invokee inv = true →
  let names := fn_params invokee ++ drop 1 (fn_params inv) in
  embedded_names ("suspendable_" +:+ fn_name invokee) names = true
  ∧ strict_parameters names = true
  ∧ captured names = false.
Proof.
  unfold well_formed_names.
  by intros [[H1 H2]%andb_true_iff H3%negb_true_iff]%andb_true_iff.
Qed.

Lemma createSuspendableFunctionFast_inv protocol invokee options w inv f :
  get_invoke protocol w = Ok inv →
  createSuspendableFunctionFast protocol invokee options w = Ok f →
  let invokerParamNames := drop 1 (fn_params inv) in
  let invokeeParamNames := fn_params invokee in
  f = suspendable_eval
        {| src_name := "suspendable_" +:+ fn_name invokee;
           src_ARGS := invokeeParamNames ++ invokerParamNames;
           src_bodyNoThis :=
             if bool_decide (length invokeeParamNames = 0)
             then bodyNoThis_invokee else bodyNoThis_b2 invokeeParamNames;
           src_bodyWithThis := invokeeParamNames;
           src_ARGCOUNT := length (invokeeParamNames ++ invokerParamNames);
           src_FASTPATH := invokerParamNames;
           src_SETUP_INVOKER_ARGS := negb (length_of inv - 1 =? 0)%Z;
           src_CALL_INVOKER_apply := negb (length_of inv - 1 =? 0)%Z |}
        protocol invokee (length_of inv - 1)%Z.
Proof.
  intros Hinv. unfold createSuspendableFunctionFast, getParamNames.
  rewrite (get_invoke_at_synthesis _ _ _ Hinv).
  destruct (check_param_names _ _); [|done..].
  destruct (eval_source _); [|done..].
  by intros [= <-].
Qed.

(** What [eval] has accepted is a strict-mode parameter list of embedded
    names. *)
Lemma createSuspendableFunctionFast_names protocol invokee options w inv f :
  get_invoke protocol w = Ok inv →
  createSuspendableFunctionFast protocol invokee options w = Ok f →
  let names := fn_params invokee ++ drop 1 (fn_params inv) in
  embedded_names ("suspendable_" +:+ fn_name invokee) names = true
  ∧ strict_parameters names = true.
Proof.
  intros Hinv. unfold createSuspendableFunctionFast, getParamNames.
  rewrite (get_invoke_at_synthesis _ _ _ Hinv).
  destruct (check_param_names _ _); [|done..].
  unfold eval_source. cbn [src_name src_ARGS].
  destruct (embedded_names _ _); [|done].
  by destruct (strict_parameters _).
Qed.

Lemma createSuspendableFunctionFast_ok protocol invokee options w inv :
  get_invoke protocol w = Ok inv →
  let names := fn_params invokee ++ drop 1 (fn_params inv) in
  embedded_names ("suspendable_" +:+ fn_name invokee) names = true →
  strict_parameters names = true →
  ∃ f, createSuspendableFunctionFast protocol invokee options w = Ok f.
Proof.
  intros Hinv names Hemb Hstrict.
  unfold createSuspendableFunctionFast, getParamNames.
  rewrite (get_invoke_at_synthesis _ _ _ Hinv).
  rewrite (check_param_names_disjoint _ _
             (NoDup_app_disjoint _ _ (strict_parameters_NoDup _ Hstrict))).
  unfold eval_source. cbn [src_name src_ARGS]. fold names.
  rewrite Hemb, Hstrict. by eexists.
Qed.


(** A call of the evaluated function with at least [invokerArgCount]
    arguments, under names that are distinct and not captured. *)
Lemma call_fast_spec protocol invokee options w0 inv f this arguments w :
  get_invoke protocol w0 = Ok inv →
  1 ≤ length (fn_params inv) →
  captured (fn_params invokee ++ drop 1 (fn_params inv)) = false →
  createSuspendableFunctionFast protocol invokee options w0 = Ok f →
  (length_of inv - 1 ≤ Z.of_nat (length arguments))%Z →
  let n := Z.to_nat (Z.of_nat (length arguments) - (length_of inv - 1)) in
  let fast_path :=
    bool_decide (length arguments
                 = length (fn_params invokee ++ drop 1 (fn_params inv))) in
  ∃ body,
    call f this arguments w
    = (let '(co, w') := acquireCoro protocol body w in
       invoke protocol
         (if fast_path || (length_of inv - 1 =? 0)%Z then VRef protocol
          else VNull)
         (VCoro co :: drop n arguments) w')
    ∧ body_fn body = invokee
    ∧ body_args body = take n arguments
    ∧ body_this body
      = (if fast_path && (negb (truthy this) || is_global this)
         then VUndefined else this)
    ∧ run_body body = call_invokee invokee (body_this body) (take n arguments).
Proof.
  intros Hinv Harity Hcap Hf Hn n fast_path.
  assert (Hndef : n = Z.to_nat (Z.of_nat (length arguments) - (length_of inv - 1)))
    by done.
  clearbody n.
  destruct (createSuspendableFunctionFast_names _ _ _ _ _ _ Hinv Hf)
    as [_ Hnd%strict_parameters_NoDup].
  rewrite (createSuspendableFunctionFast_inv _ _ _ _ _ _ Hinv Hf).
  unfold fast_path. clear fast_path.
  set (ps := fn_params invokee) in *. set (qs := drop 1 (fn_params inv)) in *.
  assert (Hqs : length qs = Z.to_nat (length_of inv - 1)).
  { unfold qs, length_of. rewrite length_drop. lia. }
  assert (Hk : (length_of inv - 1 = Z.of_nat (length qs))%Z)
    by (unfold length_of in *; lia).
  cbn [call]. unfold call_fast.
  cbn [src_ARGS src_ARGCOUNT src_bodyNoThis src_bodyWithThis src_FASTPATH
       src_SETUP_INVOKER_ARGS src_CALL_INVOKER_apply].
  rewrite Hcap.
  case_bool_decide as Hcount.
  - (* the fast path *)
    rewrite length_app in Hcount.
    assert (Hn' : n = length ps) by lia.
    rewrite param_app_r by done.
    rewrite arguments_at_seq by lia.
    rewrite (take_ge _ (length qs)) by (rewrite length_drop; lia).
    rewrite <- Hn'. cbn [orb andb].
    destruct (negb (truthy this) || is_global this) eqn:Hthis.
    + case_bool_decide as Hps.
      * exists (body_invokee invokee). rewrite Hps, take_0. done.
      * exists (b2 invokee (take n arguments)).
        rewrite param_app_l by done. rewrite arguments_at_seq by lia.
        rewrite drop_0, <- Hn'. done.
    + exists (b3 invokee this (take n arguments)).
      rewrite param_app_l by done. rewrite arguments_at_seq by lia.
      rewrite drop_0, <- Hn'. done.
  - (* the general path *)
    cbn [orb andb].
    rewrite new_Array_ok by lia. rewrite <- Hndef.
    rewrite invokeeArgs_spec by lia.
    exists (b4 invokee this (take n arguments)).
    destruct (length_of inv - 1 =? 0)%Z eqn:Hzero; cbn [negb].
    + apply Z.eqb_eq in Hzero.
      split; [|done].
      destruct (acquireCoro _ _ w) as [co w'].
      by rewrite drop_ge by lia.
    + apply Z.eqb_neq in Hzero.
      rewrite new_Array_ok by lia.
      split; [|done].
      destruct (acquireCoro _ _ w) as [co w'].
      replace (Z.to_nat (length_of inv - 1 + 1))
        with (S (Z.to_nat (length_of inv - 1))) by lia.
      by rewrite invokerArgs_spec by lia.
Qed.




Lemma invoke_world protocol this args w :
  (invoke protocol this args w).2 = w.
Proof.
  unfold invoke. destruct (get_invoke protocol w); [|done..].
  by case_decide.
Qed.

End Calls.

Section Synthesis.
Context {host : Host}.

Lemma call_slow_cases protocol invokee invokerArgCount this arguments w :
  (0 ≤ invokerArgCount)%Z →
  let n := Z.to_nat (Z.of_nat (length arguments) - invokerArgCount) in
  call_slow protocol invokee invokerArgCount this arguments w
  = if (Z.of_nat (length arguments) <? invokerArgCount)%Z
    then (Throw (RangeError "Invalid array length"), w)
    else
      let '(co, w') :=
        acquireCoro protocol
          (b1 invokee (sloppy_this this) (take n arguments)) w in
      invoke protocol VNull (VCoro co :: drop n arguments) w'.
Proof.
  intros Hk n.
  destruct (Z.ltb_spec (Z.of_nat (length arguments)) invokerArgCount).
  - by apply call_slow_too_few.
  - by apply call_slow_spec.
Qed.

(** C3, amended.  For every suspendable function that the generic strategy
    synthesizes from a protocol whose [invoke] declares its coroutine-handle
    parameter: [invokerArgCount] is the arity of [protocol.invoke] minus one;
    a call with [N >= invokerArgCount] arguments forwards the leading
    [N - invokerArgCount] arguments, in order, to the invokee through the body
    of a freshly acquired coroutine, passes the handle followed by the
    trailing [invokerArgCount] arguments to [protocol.invoke], and returns
    what [protocol.invoke] returns; a call with fewer arguments fails with a
    range error before any coroutine is acquired. *)
Theorem slow_call_distributes protocol invokee options w0 inv
    this arguments w :
  get_invoke protocol w0 = Ok inv →
  1 ≤ length (fn_params inv) →
  let invokerArgCount := (length_of inv - 1)%Z in
  let n := Z.to_nat (Z.of_nat (length arguments) - invokerArgCount) in
  createSuspendableFunctionSlow protocol invokee options w0
  = Ok (suspendable protocol invokee invokerArgCount)
  ∧ call (suspendable protocol invokee invokerArgCount) this arguments w
    = if (Z.of_nat (length arguments) <? invokerArgCount)%Z
      then (Throw (RangeError "Invalid array length"), w)
      else
        let '(co, w') :=
          acquireCoro protocol
            (b1 invokee (sloppy_this this) (take n arguments)) w in
        invoke protocol VNull (VCoro co :: drop n arguments) w'.
Proof.
  intros Hinv Harity invokerArgCount n. split.
  - unfold createSuspendableFunctionSlow.
    by rewrite (get_invoke_at_synthesis _ _ _ Hinv).
  - apply call_slow_cases. unfold invokerArgCount, length_of. lia.
Qed.


(** C5, amended.  Whenever the invokee's parameter list and the invoker's
    (the parameters of [protocol.invoke] after the coroutine handle) share a
    name, synthesis under the specialized strategy fails, at synthesis time,
    with the naming-conflict error for the first such parameter of the
    invokee; the generic strategy makes no such check and returns its
    callable. *)
Theorem fast_rejects_shared_names protocol invokee options w inv :
  get_invoke protocol w = Ok inv →
  Exists (λ p, p ∈ drop 1 (fn_params inv)) (fn_params invokee) →
  ∃ p,
    p ∈ fn_params invokee ∧ p ∈ drop 1 (fn_params inv)
    ∧ createSuspendableFunctionFast protocol invokee options w
      = Throw (Error ("async builder: invoker and invokee both have a parameter named '"
                      +:+ p +:+ "'"))
    ∧ createSuspendableFunctionSlow protocol invokee options w
      = Ok (suspendable protocol invokee (length_of inv - 1)%Z).
Proof.
  intros Hinv Hshared.
  destruct (check_param_names_shared _ _ Hshared) as (p & Hp1 & Hp2 & Hcheck).
  exists p. repeat split; try done.
  - unfold createSuspendableFunctionFast, getParamNames.
    by rewrite (get_invoke_at_synthesis _ _ _ Hinv), Hcheck.
  - unfold createSuspendableFunctionSlow.
    by rewrite (get_invoke_at_synthesis _ _ _ Hinv).
Qed.

(** C7, amended.  For every pair whose names the specialized strategy
    accepts (plain identifiers that form a strict-mode parameter list), the
    strategy produces a function, and its reported arity ([length]) is the
    invokee's declared parameter count plus the number of parameters that
    [protocol.invoke] declares after its first one: the arity of
    [protocol.invoke] minus one when it declares the coroutine handle, and
    zero when it declares no parameter at all. *)
Theorem fast_arity protocol invokee options w inv :
  get_invoke protocol w = Ok inv →
  let names := fn_params invokee ++ drop 1 (fn_params inv) in
  embedded_names ("suspendable_" +:+ fn_name invokee) names = true →
  strict_parameters names = true →
  ∃ f,
    createSuspendableFunctionFast protocol invokee options w = Ok f
    ∧ Z.of_nat (suspendable_length f)
      = (length_of invokee + Z.max 0 (length_of inv - 1))%Z
    ∧ (1 ≤ length (fn_params inv) →
       Z.of_nat (suspendable_length f)
       = (length_of invokee + (length_of inv - 1))%Z).
Proof.
  intros Hinv names Hemb Hstrict.
  destruct (createSuspendableFunctionFast_ok _ invokee options _ _ Hinv
              Hemb Hstrict) as [f Hf].
  exists f. split; [done|].
  rewrite (createSuspendableFunctionFast_inv _ _ _ _ _ _ Hinv Hf).
  cbn [suspendable_length src_ARGS].
  rewrite length_app, length_drop. unfold length_of. split; [lia|]. lia.
Qed.

End Synthesis.

Section Builders.
Context {host : Host}.

(** C10.  Calling a builder with an argument count other than one, or with
    an argument that is not a function, raises a usage error (a failed
    assertion), and the pipeline's lock flag is set all the same: the lock is
    written before the arguments are validated. *)
Theorem invalid_build_still_locks builder arguments w :
  length arguments ≠ 1 ∨ isFunction (arguments_at arguments 0) = false →
  ∃ msg,
    asyncBuilder builder arguments w
    = (Throw (AssertionError msg), set_isLocked true w)
    ∧ isLocked (asyncBuilder builder arguments w).2 = true.
Proof.
  intros Hinvalid. unfold asyncBuilder.
  case_bool_decide as Hlen; simpl.
  - destruct Hinvalid as [?|Hfn]; [done|].
    destruct (arguments_at arguments 0); try done; by eexists.
  - by eexists.
Qed.

(** *** The lock *)

Lemma acquireCoro_isLocked protocol body w :
  isLocked (acquireCoro protocol body w).2 = isLocked w.
Proof. unfold acquireCoro. by destruct (pool w). Qed.

Lemma call_isLocked f this arguments w :
  isLocked (call f this arguments w).2 = isLocked w.
Proof.
  destruct f as [protocol invokee k|src protocol invokee k]; simpl.
  - unfold call_slow.
    destruct (new_Array _); [|done..]. destruct (new_Array _); [|done..].
    destruct (acquireCoro _ _ w) as [co w'] eqn:Hacq.
    rewrite invoke_world.
    by rewrite <- (acquireCoro_isLocked protocol
      (b1 invokee (sloppy_this this)
         (copy_arguments (Z.to_nat (Z.of_nat (length arguments) - k)) 0 0
            arguments a)) w), Hacq.
  - unfold call_fast.
    destruct (captured _); [done|].
    case_bool_decide.
    + destruct (acquireCoro _ _ w) as [co w'] eqn:Hacq.
      rewrite invoke_world.
      match type of Hacq with
      | acquireCoro ?p ?b _ = _ =>
          by rewrite <- (acquireCoro_isLocked p b w), Hacq
      end.
    + destruct (new_Array _); [|done..].
      destruct (if src_SETUP_INVOKER_ARGS src then _ else _); [|done..].
      destruct (acquireCoro _ _ w) as [co w'] eqn:Hacq.
      assert (isLocked w' = isLocked w) as <-.
      { match type of Hacq with
        | acquireCoro ?p ?b _ = _ =>
            by rewrite <- (acquireCoro_isLocked p b w), Hacq
        end. }
      destruct (src_CALL_INVOKER_apply src); by rewrite invoke_world.
Qed.

Lemma createAsyncBuilder_isLocked factory options base w :
  isLocked (createAsyncBuilder factory options base w).2 = isLocked w.
Proof.
  unfold createAsyncBuilder. simpl. by destruct (call_factory _ _ _).
Qed.

Lemma derive_isLocked builder arguments w :
  isLocked (derive builder arguments w).2 = isLocked w.
Proof.
  unfold derive.
  destruct (negb (bool_decide (0 < length arguments))); [done|].
  destruct (negb _); [done|]. simpl.
  rewrite createAsyncBuilder_isLocked.
  by destruct (negb (isFunction _)).
Qed.

Lemma asyncBuilder_isLocked builder arguments w :
  isLocked (asyncBuilder builder arguments w).2 = true.
Proof.
  unfold asyncBuilder. destruct (negb _); [done|].
  by destruct (arguments_at arguments 0).
Qed.

Lemma use_isLocked mod_ w : isLocked (use mod_ w).2 = isLocked w.
Proof. unfold use. by destruct (isLocked w) eqn:Hl. Qed.

Lemma exec_keeps_lock op w :
  isLocked w = true → isLocked (exec op w) = true.
Proof.
  intros Hlocked. destruct op; simpl.
  - apply asyncBuilder_isLocked.
  - by rewrite derive_isLocked.
  - by rewrite call_isLocked.
  - done.
  - by rewrite use_isLocked.
Qed.

Lemma exec_all_keeps_lock ops : ∀ w,
  isLocked w = true → isLocked (exec_all ops w) = true.
Proof.
  induction ops as [|op ops IH]; intros w Hlocked; [done|].
  simpl. apply IH. by apply exec_keeps_lock.
Qed.

(** C6.  Calling a builder sets the pipeline's lock flag; whatever is done
    with the pipeline afterwards (building, deriving, calling suspendable
    functions, releasing coroutines, trying to register a protocol), the flag
    stays set, and every attempt to register a new default base protocol
    fails. *)
Theorem lock_is_permanent builder arguments ops mod_ w :
  let w1 := (asyncBuilder builder arguments w).2 in
  let w2 := exec_all ops w1 in
  isLocked w1 = true
  ∧ isLocked w2 = true
  ∧ use mod_ w2
    = (Throw (Error "use: cannot alter the pipeline after first async(...) call"),
       w2).
Proof.
  intros w1 w2.
  assert (H1 : isLocked w1 = true) by apply asyncBuilder_isLocked.
  assert (H2 : isLocked w2 = true) by by apply exec_all_keeps_lock.
  repeat split; try done. unfold use. by rewrite H2.
Qed.

End Builders.

Section Derive.
Context {host : Host}.

Lemma merge_object_empty source : merge_object ∅ source = source.
Proof. unfold merge_object. apply (right_id _ _). Qed.

Lemma props_of_live v w w' :
  live w v → heap w ⊆ heap w' → props_of v w' = props_of v w.
Proof.
  intros Hlive Hsub. destruct v; try done. simpl in *.
  apply elem_of_dom in Hlive as [obj Hobj].
  rewrite Hobj. by rewrite (lookup_weaken _ _ _ _ Hobj Hsub).
Qed.

Lemma live_arguments_at w arguments i :
  Forall (live w) arguments → live w (arguments_at arguments i).
Proof.
  intros Hall. unfold arguments_at.
  destruct (arguments !! i) as [v|] eqn:Hi; [|done].
  by eapply Forall_lookup_1.
Qed.

Lemma insert_fresh_subseteq (h : gmap nat (gmap string value)) l obj :
  l ∉ dom h → h ⊆ <[l := obj]> h.
Proof. intros Hl. apply insert_subseteq. by apply not_elem_of_dom. Qed.


Lemma heap_mergeProps target source w :
  heap (mergeProps target source w)
  = <[target := merge_object (default ∅ (heap w !! target))
                  (props_of source w)]> (heap w).
Proof. done. Qed.

Lemma live_weaken w w' v : live w v → heap w ⊆ heap w' → live w' v.
Proof.
  intros Hlive Hsub. destruct v; try done. simpl in *.
  by eapply subseteq_dom.
Qed.

Lemma createAsyncBuilder_spec factory options_ base w overrides :
  options_ ∈ dom (heap w) → base ∈ dom (heap w) → live w overrides →
  call_factory factory (props_of (VRef options_) w) (props_of (VRef base) w)
  = Ok overrides →
  ∃ p w',
    createAsyncBuilder factory options_ base w
    = (Ok {| protocol := p; options := options_; protocolFactory := factory;
             baseProtocol := base |}, w')
    ∧ (p ∉ dom (heap w))
    ∧ heap w'
      = <[p := merge_object (props_of (VRef base) w) (props_of overrides w)]>
          (heap w)
    ∧ isLocked w' = isLocked w.
Proof.
  intros Hopt Hbase Hlive Hfactory. unfold createAsyncBuilder.
  set (p := fresh (dom (heap w))).
  assert (Hp : p ∉ dom (heap w)) by apply is_fresh.
  unfold alloc_object. cbv beta iota zeta. fold p.
  set (w1 := set_heap (<[p := ∅]> (heap w)) w).
  assert (Hsub : heap w ⊆ heap w1) by by apply insert_fresh_subseteq.
  rewrite (props_of_live (VRef options_) w w1) by done.
  rewrite (props_of_live (VRef base) w w1) by done.
  rewrite Hfactory.
  set (w2 := mergeProps p (VRef base) w1).
  assert (Hw2 : heap w2 = <[p := props_of (VRef base) w]> (heap w)).
  { unfold w2. rewrite heap_mergeProps.
    rewrite (props_of_live (VRef base) w w1) by done.
    unfold w1 at 1 2. simpl. rewrite lookup_insert_eq. simpl.
    by rewrite merge_object_empty, insert_insert_eq. }
  assert (Hsub2 : heap w ⊆ heap w2).
  { rewrite Hw2. by apply insert_fresh_subseteq. }
  exists p, (mergeProps p overrides w2).
  split; [reflexivity|]. split; [done|]. split; [|done].
  rewrite heap_mergeProps.
  rewrite (props_of_live overrides w w2) by done.
  rewrite Hw2, lookup_insert_eq. simpl.
  by rewrite insert_insert_eq.
Qed.

(** C4.  [derive] called with a single configuration map returns a new
    builder with the same protocol factory and base protocol, whose
    configuration is the current configuration merged with the map; called
    with a protocol factory and an optional configuration map it returns a
    new builder with that factory, whose base protocol is the current
    builder's protocol and whose configuration is the supplied map alone.
    In both cases the new builder's [options] and [protocol] are fresh
    objects, and every object that existed before the call, those of the
    current builder among them, is unchanged. *)
Theorem derive_returns_new_builder builder arguments w overrides :
  let arg0 := arguments_at arguments 0 in
  let hasProtocolFactory := isFunction arg0 in
  let override :=
    props_of (if hasProtocolFactory then arguments_at arguments 1 else arg0) w in
  let current := props_of (VRef (options builder)) w in
  let configuration :=
    if hasProtocolFactory then override else merge_object current override in
  let factory :=
    match arg0 with VFun f => f | _ => protocolFactory builder end in
  let base :=
    if hasProtocolFactory then protocol builder else baseProtocol builder in
  0 < length arguments →
  hasProtocolFactory = true ∨ length arguments = 1 →
  options builder ∈ dom (heap w) →
  protocol builder ∈ dom (heap w) →
  baseProtocol builder ∈ dom (heap w) →
  Forall (live w) arguments →
  live w overrides →
  call_factory factory configuration (props_of (VRef base) w) = Ok overrides →
  ∃ derived w',
    derive builder arguments w = (Ok derived, w')
    ∧ protocolFactory derived = factory
    ∧ baseProtocol derived = base
    ∧ heap w' !! options derived = Some configuration
    ∧ heap w' !! protocol derived
      = Some (merge_object (props_of (VRef base) w) (props_of overrides w))
    ∧ (options derived ∉ dom (heap w))
    ∧ (protocol derived ∉ dom (heap w))
    ∧ heap w ⊆ heap w'
    ∧ isLocked w' = isLocked w.
Proof.
  intros arg0 has override current configuration factory base
    Hlen Hcombo Hopt Hprot Hbase Hargs Hlive Hfactory.
  assert (Hbase' : base ∈ dom (heap w)).
  { unfold base, has. by destruct (isFunction arg0). }
  unfold derive.
  rewrite bool_decide_eq_true_2 by done. simpl.
  fold arg0. fold has.
  assert (Hcheck : has || bool_decide (length arguments = 1) = true).
  { destruct Hcombo as [Hc|Hc]; rewrite Hc; [done|].
    rewrite bool_decide_eq_true_2 by done. by rewrite orb_true_r. }
  rewrite Hcheck. clear Hcombo Hcheck. simpl.
  set (opts := fresh (dom (heap w))).
  assert (Hopts : opts ∉ dom (heap w)) by apply is_fresh.
  set (w1 := set_heap (<[opts := ∅]> (heap w)) w).
  assert (Hsub1 : heap w ⊆ heap w1) by by apply insert_fresh_subseteq.
  set (w2 := if negb has then mergeProps opts (VRef (options builder)) w1
             else w1).
  set (src := if has then arguments_at arguments 1 else arg0).
  assert (Hsrc : live w src).
  { unfold src, arg0, has.
    destruct (isFunction _); by apply live_arguments_at. }
  assert (Hw2 : heap w2 = <[opts := if has then ∅ else current]> (heap w)).
  { unfold w2. destruct has; simpl; [done|].
    rewrite lookup_insert_eq. simpl. rewrite insert_insert_eq.
    rewrite merge_object_empty.
    change (default ∅ (<[opts:=∅]> (heap w) !! options builder))
      with (props_of (VRef (options builder)) w1).
    by rewrite (props_of_live (VRef (options builder)) w w1). }
  assert (Hsub2 : heap w ⊆ heap w2).
  { rewrite Hw2. by apply insert_fresh_subseteq. }
  set (w3 := mergeProps opts src w2).
  assert (Hw3 : heap w3 = <[opts := configuration]> (heap w)).
  { unfold w3, mergeProps. simpl. rewrite Hw2, lookup_insert_eq. simpl.
    rewrite insert_insert_eq.
    rewrite (props_of_live src w w2) by done.
    unfold configuration. fold src.
    destruct has; [by rewrite merge_object_empty|done]. }
  assert (Hsub3 : heap w ⊆ heap w3).
  { rewrite Hw3. by apply insert_fresh_subseteq. }
  assert (Hfactory3 :
    call_factory factory (props_of (VRef opts) w3) (props_of (VRef base) w3)
    = Ok overrides).
  { rewrite (props_of_live (VRef base) w w3) by done.
    unfold props_of at 1. by rewrite Hw3, lookup_insert_eq. }
  destruct (createAsyncBuilder_spec factory opts base w3 overrides)
    as (p & w' & Hcreate & Hp & Hw' & Hlock); try done.
  { rewrite Hw3. set_solver. }
  { by eapply subseteq_dom. }
  { by eapply live_weaken. }
  assert (Hfac : (match arg0 with VFun f => f | _ => protocolFactory builder end)
                 = factory) by done.
  assert (Hb : (if has then protocol builder else baseProtocol builder) = base)
    by done.
  rewrite Hfac, Hb.
  exists {| protocol := p; options := opts; protocolFactory := factory;
            baseProtocol := base |}, w'.
  split; [exact Hcreate|]. simpl.
  assert (Hne : p ≠ opts).
  { intros ->. apply Hp. rewrite Hw3. set_solver. }
  rewrite (props_of_live (VRef base) w w3) in Hw' by done.
  rewrite (props_of_live overrides w w3) in Hw' by done.
  repeat split; try done.
  - by rewrite Hw', lookup_insert_ne, Hw3, lookup_insert_eq.
  - by rewrite Hw', lookup_insert_eq.
  - intros Hin. apply Hp. by eapply subseteq_dom.
  - rewrite Hw'. etrans; [exact Hsub3|]. by apply insert_fresh_subseteq.
  - rewrite Hlock. unfold w3, w2. by destruct (negb has).
Qed.

End Derive.

(** The bodies of the two strategies differ in one more respect: [b1] does not
    return what the invokee returns. *)
Lemma run_body_b1 {host : Host} invokee self invokeeArgs v :
  call_invokee invokee self invokeeArgs = Ok v →
  run_body (b1 invokee self invokeeArgs) = Ok VUndefined
  ∧ run_body (b4 invokee self invokeeArgs) = Ok v.
Proof. intros Hv. simpl. by rewrite Hv. Qed.

(** *** Concrete instances *)

(** [slow_call_distributes] at [add], called as a method of object 3 with
    two arguments and a callback. *)
Lemma slow_call_distributes_witness :
  get_invoke 2 example_world = Ok cps_invoke
  ∧ 1 ≤ length (fn_params cps_invoke)
  ∧ createSuspendableFunctionSlow 2 add 3 example_world
    = Ok (suspendable 2 add 1)
  ∧ call (host := example_host true) (suspendable 2 add 1) (VRef 3)
      [VNum 1; VNum 2; VFun finished] example_world
    = (Ok (VCoro 0),
       (acquireCoro 2 (b1 add (VRef 3) [VNum 1; VNum 2]) example_world).2).
Proof.
  split; [reflexivity|]. split; [simpl; lia|].
  destruct (slow_call_distributes (host := example_host true) 2 add 3
              example_world cps_invoke (VRef 3)
              [VNum 1; VNum 2; VFun finished] example_world)
    as [Hcreate Hcall]; [reflexivity|simpl; lia|].
  split; [exact Hcreate|].
  refine (eq_trans Hcall _). reflexivity.
Defined.

(** C3, as stated, fails for a call with fewer than [invokerArgCount]
    arguments: nothing is forwarded and [protocol.invoke] is not called. *)
Lemma slow_call_with_too_few_arguments :
  createSuspendableFunctionSlow 2 add 3 example_world
  = Ok (suspendable 2 add 1)
  ∧ call (host := example_host true) (suspendable 2 add 1) VUndefined []
      example_world
    = (Throw (RangeError "Invalid array length"), example_world).
Proof. split; reflexivity. Qed.


(** C5, as stated, fails under the generic strategy ([DEBUG] set): a builder
    accepts an invokee that shares a parameter name with the invoker. *)
Lemma generic_builder_accepts_shared_name :
  Exists (λ p, p ∈ drop 1 (fn_params cps_invoke)) (fn_params notify)
  ∧ asyncBuilder (host := example_host true) example_builder [VFun notify]
      example_world
    = (Ok (suspendable 2 notify 1), set_isLocked true example_world).
Proof. split; [|reflexivity]. constructor. simpl. set_solver. Qed.

(** [fast_rejects_shared_names] at [notify]. *)
Lemma fast_rejects_shared_names_witness :
  get_invoke 2 example_world = Ok cps_invoke
  ∧ Exists (λ p, p ∈ drop 1 (fn_params cps_invoke)) (fn_params notify)
  ∧ ∃ p,
      p ∈ fn_params notify ∧ p ∈ drop 1 (fn_params cps_invoke)
      ∧ createSuspendableFunctionFast 2 notify 3 example_world
        = Throw (Error ("async builder: invoker and invokee both have a parameter named '"
                        +:+ p +:+ "'"))
      ∧ createSuspendableFunctionSlow 2 notify 3 example_world
        = Ok (suspendable 2 notify (length_of cps_invoke - 1)%Z).
Proof.
  assert (Hshared :
    Exists (λ p, p ∈ drop 1 (fn_params cps_invoke)) (fn_params notify)).
  { constructor. simpl. set_solver. }
  split; [reflexivity|]. split; [exact Hshared|].
  exact (fast_rejects_shared_names 2 notify 3 example_world cps_invoke
           eq_refl Hshared).
Defined.

(** [fast_arity] at [add] under [invoke(co, callback)]: arity 3. *)
Lemma fast_arity_witness :
  get_invoke 2 example_world = Ok cps_invoke
  ∧ embedded_names ("suspendable_" +:+ fn_name add)
      (fn_params add ++ drop 1 (fn_params cps_invoke)) = true
  ∧ strict_parameters (fn_params add ++ drop 1 (fn_params cps_invoke)) = true
  ∧ ∃ f,
      createSuspendableFunctionFast 2 add 3 example_world = Ok f
      ∧ Z.of_nat (suspendable_length f) = 3%Z.
Proof.
  split; [reflexivity|]. split; [reflexivity|]. split; [reflexivity|].
  destruct (fast_arity 2 add 3 example_world cps_invoke eq_refl eq_refl eq_refl)
    as (f & Hf & Harity & _).
  exists f. split; [exact Hf|]. exact Harity.
Defined.

(** C7, as stated, fails under an [invoke] that declares no parameter: the
    function that the specialized strategy produces for [add(a, b)] has
    arity 2, and the invokee's parameter count plus the arity of [invoke]
    minus one is 1. *)
Lemma fast_arity_without_handle :
  get_invoke 0 handleless_world = Ok handleless_invoke
  ∧ ∃ f,
      createSuspendableFunctionFast 0 add 1 handleless_world = Ok f
      ∧ Z.of_nat (suspendable_length f) = 2%Z
      ∧ (length_of add + (length_of handleless_invoke - 1))%Z = 1%Z.
Proof. split; [reflexivity|]. eexists. repeat split; reflexivity. Qed.

(** [invalid_build_still_locks] at a call without arguments. *)
Lemma invalid_build_still_locks_witness :
  (length ([] : list value) ≠ 1
   ∨ isFunction (arguments_at [] 0) = false)
  ∧ ∃ msg,
      asyncBuilder (host := example_host false) example_builder []
        example_world
      = (Throw (AssertionError msg), set_isLocked true example_world)
      ∧ isLocked
          (asyncBuilder (host := example_host false) example_builder []
             example_world).2 = true.
Proof.
  assert (Hinvalid : length ([] : list value) ≠ 1
                     ∨ isFunction (arguments_at [] 0) = false).
  { left. simpl. lia. }
  split; [exact Hinvalid|].
  exact (invalid_build_still_locks (host := example_host false)
           example_builder [] example_world Hinvalid).
Defined.


(** [derive_returns_new_builder] at [derive({timeout: 250})] and at
    [derive(thunk, {timeout: 250})]. *)
Lemma derive_returns_new_builder_witness :
  options example_builder ∈ dom (heap example_world)
  ∧ protocol example_builder ∈ dom (heap example_world)
  ∧ baseProtocol example_builder ∈ dom (heap example_world)
  ∧ Forall (live example_world) [VRef 4]
  ∧ Forall (live example_world) [VFun thunk_factory; VRef 4]
  ∧ (∃ derived w',
       derive (host := example_host false) example_builder [VRef 4]
         example_world = (Ok derived, w')
       ∧ protocolFactory derived = cps_factory
       ∧ baseProtocol derived = 0
       ∧ heap w' !! options derived
         = Some {[ "timeout" := VNum 250; "retries" := VNum 2 ]}
       ∧ heap example_world ⊆ heap w')
  ∧ (∃ derived w',
       derive (host := example_host false) example_builder
         [VFun thunk_factory; VRef 4] example_world = (Ok derived, w')
       ∧ protocolFactory derived = thunk_factory
       ∧ baseProtocol derived = 2
       ∧ heap w' !! options derived = Some {[ "timeout" := VNum 250 ]}
       ∧ heap example_world ⊆ heap w').
Proof.
  assert (H3 : 3 ∈ dom example_heap) by (apply elem_of_dom; by eexists).
  assert (H2 : 2 ∈ dom example_heap) by (apply elem_of_dom; by eexists).
  assert (H0 : 0 ∈ dom example_heap) by (apply elem_of_dom; by eexists).
  assert (H4 : 4 ∈ dom example_heap) by (apply elem_of_dom; by eexists).
  assert (Hargs1 : Forall (live example_world) [VRef 4]).
  { by repeat constructor. }
  assert (Hargs2 : Forall (live example_world) [VFun thunk_factory; VRef 4]).
  { by repeat constructor. }
  split; [exact H3|]. split; [exact H2|]. split; [exact H0|].
  split; [exact Hargs1|]. split; [exact Hargs2|]. split.
  - destruct (derive_returns_new_builder (host := example_host false)
                example_builder [VRef 4] example_world
                (VObj {[ "invoke" := VFun cps_invoke ]}))
      as (derived & w' & Hderive & Hfactory & Hbase & Hoptions & _ & _ & _
          & Hsub & _);
      [simpl; lia|right; reflexivity|exact H3|exact H2|exact H0|exact Hargs1
      |exact I|reflexivity|].
    exists derived, w'. split; [exact Hderive|]. split; [exact Hfactory|].
    split; [exact Hbase|]. split; [|exact Hsub].
    rewrite Hoptions. vm_compute. reflexivity.
  - destruct (derive_returns_new_builder (host := example_host false)
                example_builder [VFun thunk_factory; VRef 4] example_world
                (VObj {[ "invoke" := VFun cps_invoke ]}))
      as (derived & w' & Hderive & Hfactory & Hbase & Hoptions & _ & _ & _
          & Hsub & _);
      [simpl; lia|left; reflexivity|exact H3|exact H2|exact H0|exact Hargs2
      |exact I|reflexivity|].
    exists derived, w'. split; [exact Hderive|]. split; [exact Hfactory|].
    split; [exact Hbase|]. split; [|exact Hsub].
    rewrite Hoptions. vm_compute. reflexivity.
Defined.

End AsyncBuilderSpec.

(** ** Properties of iterable.cps.js *)
Module IterableCpsSpec.
Import JS IterableCps Examples.

Lemma run_idle fuel s : immediates s = [] → run fuel s = s.
Proof. intros Hq. destruct fuel; simpl; [done|]. by rewrite Hq. Qed.

Lemma item_done d v props :
  item d v = VObj props → default VUndefined (props !! "done") = VBool d.
Proof. intros [= <-]. by rewrite lookup_insert_eq. Qed.

Lemma item_value d v props :
  item d v = VObj props → default VUndefined (props !! "value") = v.
Proof.
  intros [= <-]. rewrite lookup_insert_ne by done.
  by rewrite lookup_singleton_eq.
Qed.

Lemma stepResolved_yielded callback done_ v s :
  stepResolved (VFun callback) done_ (item false v) s
  = setImmediate (stepNext (VFun callback) done_) (log (Called callback [v]) s).
Proof.
  unfold stepResolved. simpl.
  rewrite (item_done false v _ eq_refl), (item_value false v _ eq_refl).
  done.
Qed.

Lemma stepResolved_returned callback done_ result s :
  stepResolved callback done_ (item true result) s
  = call_fn done_ [VNull; result] s.
Proof.
  unfold stepResolved. simpl.
  by rewrite (item_done true result _ eq_refl),
    (item_value true result _ eq_refl).
Qed.

Lemma arguments_at_second (a b : value) : arguments_at [a; b] 1 = b.
Proof. done. Qed.

Lemma forwarded_yielded callback done_ probe v :
  forwarded callback done_ (Called probe [VNull; item false v])
  = Called callback [v].
Proof.
  unfold forwarded. simpl.
  by rewrite (item_done false v _ eq_refl), (item_value false v _ eq_refl).
Qed.

Lemma forwarded_outcome callback done_ probe e :
  forwarded callback done_ (Called probe (outcome_args e))
  = Called done_ (done_args e).
Proof.
  destruct e as [result|error]; [|done].
  unfold forwarded. simpl.
  by rewrite (item_done true result _ eq_refl),
    (item_value true result _ eq_refl).
Qed.

#[local] Arguments stepResolved : simpl never.
#[local] Arguments item : simpl never.

Lemma run_S fuel t rest co tr :
  run (S fuel) {| iterable := co; immediates := t :: rest; trace := tr |}
  = run fuel (run_task t {| iterable := co; immediates := rest; trace := tr |}).
Proof. done. Qed.

(** One turn of the event loop, for each shape of task and coroutine. *)
Lemma task_yields callback done_ v ys e queue tr :
  let cb := StepCallback (VFun callback) done_ in
  run_task (invokeNext_task cb)
    {| iterable := {| done := false; nextCallback := Some cb;
                      fiber := Some {| yields := v :: ys; ending := e |} |};
       immediates := queue; trace := tr |}
  = {| iterable := {| done := false; nextCallback := Some cb;
                      fiber := Some {| yields := ys; ending := e |} |};
       immediates := queue ++ [stepNext (VFun callback) done_];
       trace := tr ++ [Called callback [v]] |}.
Proof.
  intros cb. unfold run_task, resume, yield, call_nextCallback. simpl.
  by rewrite arguments_at_second, stepResolved_yielded.
Qed.

Lemma task_ends callback done_ e queue tr :
  let cb := StepCallback callback done_ in
  run_task (invokeNext_task cb)
    {| iterable := {| done := false; nextCallback := Some cb;
                      fiber := Some {| yields := []; ending := e |} |};
       immediates := queue; trace := tr |}
  = call_fn done_ (done_args e)
      {| iterable :=
           {| done := match e with Returns _ => true | Throws _ => false end;
              nextCallback := Some cb; fiber := None |};
         immediates := queue; trace := tr |}.
Proof.
  intros cb. unfold run_task, resume. simpl. destruct e as [result|error].
  - unfold return_, call_nextCallback. simpl.
    by rewrite arguments_at_second, stepResolved_returned.
  - done.
Qed.

Lemma task_stepNext callback done_ co queue tr :
  run_task (stepNext callback done_)
    {| iterable := co; immediates := queue; trace := tr |}
  = {| iterable := {| done := done co;
                      nextCallback := Some (StepCallback callback done_);
                      fiber := fiber co |};
       immediates := queue ++ [invokeNext_task (StepCallback callback done_)];
       trace := tr |}.
Proof. done. Qed.

(** The loop that [forEach] sets up, from the moment its first [next] is
    queued. *)
Lemma forEach_loop callback done_ e fuel : ∀ ys tr,
  let cb := StepCallback (VFun callback) (Given (VFun done_)) in
  run (2 * length ys + 1 + fuel)
    {| iterable := {| done := false; nextCallback := Some cb;
                      fiber := Some {| yields := ys; ending := e |} |};
       immediates := [invokeNext_task cb]; trace := tr |}
  = {| iterable := {| done := match e with Returns _ => true | Throws _ => false end;
                      nextCallback := Some cb; fiber := None |};
       immediates := [];
       trace := tr ++ ((λ v, Called callback [v]) <$> ys)
                ++ [Called done_ (done_args e)] |}.
Proof.
  induction ys as [|v ys IH]; intros tr cb.
  - change (2 * length [] + 1 + fuel) with (S fuel).
    rewrite run_S. unfold cb. rewrite task_ends. by rewrite run_idle.
  - replace (2 * length (v :: ys) + 1 + fuel)
      with (S (S (2 * length ys + 1 + fuel))) by (simpl; lia).
    rewrite run_S. unfold cb. rewrite task_yields.
    rewrite app_nil_l, run_S, task_stepNext. cbn [done fiber app].
    rewrite IH. by rewrite <- app_assoc.
Qed.

Example forEach_four_values :
  trace (run 9 (forEach [VFun collect; VFun finished] (invoke four_values)).2)
  = [Called collect [VNum 111]; Called collect [VNum 222];
     Called collect [VNum 333]; Called collect [VNum 444];
     Called finished [VNull; VStr "done"]].
Proof. reflexivity. Qed.

#[local] Arguments call_fn : simpl never.
#[local] Arguments or_nullFunc : simpl never.

Lemma call_fn_events f args co queue tr :
  call_fn f args {| iterable := co; immediates := queue; trace := tr |}
  = {| iterable := co; immediates := queue; trace := tr ++ fn_events f args |}.
Proof.
  unfold call_fn. destruct f as [|v]; simpl; [by rewrite app_nil_r|].
  by destruct v.
Qed.

(** After a callback has been called, the queue is empty again. *)
Ltac settle :=
  change (arguments_at [?c] 0) with c;
  unfold set_iterable; cbn [immediates trace iterable];
  rewrite call_fn_events; by rewrite run_idle.

Lemma next_yields callback v ys e pending tr fuel :
  run (S fuel)
    (next [callback]
       {| iterable := {| done := false; nextCallback := pending;
                         fiber := Some {| yields := v :: ys; ending := e |} |};
          immediates := []; trace := tr |})
  = {| iterable := {| done := false;
                      nextCallback := Some (Plain (or_nullFunc callback));
                      fiber := Some {| yields := ys; ending := e |} |};
       immediates := [];
       trace := tr ++ fn_events (or_nullFunc callback) [VNull; item false v] |}.
Proof.
  unfold next, invokeNext. simpl.
  unfold resume, yield, call_nextCallback. simpl. settle.
Qed.

Lemma next_ends callback e pending tr fuel :
  run (S fuel)
    (next [callback]
       {| iterable := {| done := false; nextCallback := pending;
                         fiber := Some {| yields := []; ending := e |} |};
          immediates := []; trace := tr |})
  = {| iterable :=
         {| done := match e with Returns _ => true | Throws _ => false end;
            nextCallback := Some (Plain (or_nullFunc callback));
            fiber := None |};
       immediates := [];
       trace := tr ++ fn_events (or_nullFunc callback) (outcome_args e) |}.
Proof.
  unfold next, invokeNext. simpl. unfold resume. simpl.
  destruct e as [result|error].
  - unfold return_, call_nextCallback. simpl. settle.
  - unfold throw, call_nextCallback. simpl. settle.
Qed.

(** Once [done] is set, [next] reports the end of the iteration. *)
Lemma next_when_done callback pending rest tr fuel :
  run (S fuel)
    (next [callback]
       {| iterable := {| done := true; nextCallback := pending; fiber := rest |};
          immediates := []; trace := tr |})
  = {| iterable := {| done := true;
                      nextCallback := Some (Plain (or_nullFunc callback));
                      fiber := rest |};
       immediates := [];
       trace := tr ++ fn_events (or_nullFunc callback)
                        [VError (Error "iterated past end")] |}.
Proof.
  unfold next, invokeNext. simpl. settle.
Qed.





Lemma drive_app fuel callbacks1 callbacks2 s :
  drive fuel (callbacks1 ++ callbacks2) s
  = drive fuel callbacks2 (drive fuel callbacks1 s).
Proof. unfold drive. by rewrite foldl_app. Qed.

(** Successive [next] calls with functions, while the body yields. *)
Lemma drive_functions_yield fuel e rest : ∀ ys fs pending tr,
  length fs = length ys →
  ∃ pending',
    drive (S fuel) (VFun <$> fs)
      {| iterable := {| done := false; nextCallback := pending;
                        fiber := Some {| yields := ys ++ rest; ending := e |} |};
         immediates := []; trace := tr |}
    = {| iterable := {| done := false; nextCallback := pending';
                        fiber := Some {| yields := rest; ending := e |} |};
         immediates := [];
         trace := tr ++ zip_with (λ f v, Called f [VNull; item false v]) fs ys |}.
Proof.
  induction ys as [|v ys IH]; intros fs pending tr Hlen.
  - destruct fs; [|done]. exists pending. simpl. by rewrite app_nil_r.
  - destruct fs as [|f fs]; [done|]. injection Hlen as Hlen.
    cbn [fmap list_fmap drive foldl app]. rewrite next_yields.
    destruct (IH fs (Some (Plain (or_nullFunc (VFun f))))
                (tr ++ fn_events (or_nullFunc (VFun f)) [VNull; item false v])
                Hlen) as [pending' Hdrive].
    exists pending'. unfold drive in Hdrive. rewrite Hdrive.
    f_equal. by rewrite <- app_assoc.
Qed.

Lemma drive_functions_done fuel rest : ∀ fs pending tr,
  ∃ pending',
    drive (S fuel) (VFun <$> fs)
      {| iterable := {| done := true; nextCallback := pending; fiber := rest |};
         immediates := []; trace := tr |}
    = {| iterable := {| done := true; nextCallback := pending'; fiber := rest |};
         immediates := [];
         trace := tr ++ ((λ f, Called f [VError (Error "iterated past end")])
                         <$> fs) |}.
Proof.
  induction fs as [|f fs IH]; intros pending tr.
  - exists pending. simpl. by rewrite app_nil_r.
  - cbn [fmap list_fmap drive foldl]. rewrite next_when_done.
    destruct (IH (Some (Plain (or_nullFunc (VFun f))))
                (tr ++ fn_events (or_nullFunc (VFun f))
                         [VError (Error "iterated past end")]))
      as [pending' Hdrive].
    exists pending'. unfold drive in Hdrive. rewrite Hdrive.
    f_equal. by rewrite <- app_assoc.
Qed.

Lemma drive_single fuel (callback : JsFunction) s :
  drive fuel (VFun <$> [callback]) s = run fuel (next [VFun callback] s).
Proof. done. Qed.

Lemma drive_cons fuel callback callbacks s :
  drive fuel (callback :: callbacks) s
  = drive fuel callbacks (run fuel (next [callback] s)).
Proof. done. Qed.

(** Successive [next] calls with one function, up to the end of the body. *)
Lemma drive_probe fuel (probe : JsFunction) e : ∀ ys pending tr,
  drive (S fuel) (replicate (S (length ys)) (VFun probe))
    {| iterable := {| done := false; nextCallback := pending;
                      fiber := Some {| yields := ys; ending := e |} |};
       immediates := []; trace := tr |}
  = {| iterable :=
         {| done := match e with Returns _ => true | Throws _ => false end;
            nextCallback := Some (Plain (Given (VFun probe)));
            fiber := None |};
       immediates := [];
       trace := tr ++ ((λ v, Called probe [VNull; item false v]) <$> ys)
                ++ [Called probe (outcome_args e)] |}.
Proof.
  induction ys as [|v ys IH]; intros pending tr.
  - cbn [length replicate]. rewrite drive_cons, next_ends. done.
  - change (replicate (S (length (v :: ys))) (VFun probe))
      with (VFun probe :: replicate (S (length ys)) (VFun probe)).
    rewrite drive_cons, next_yields.
    rewrite (IH (Some (Plain (or_nullFunc (VFun probe))))
               (tr ++ fn_events (or_nullFunc (VFun probe))
                        [VNull; item false v])).
    f_equal. cbn [fmap list_fmap]. by rewrite <- app_assoc.
Qed.

(** C8, amended.  On an iterator on which no [next] call is pending and
    whose body has still to yield [ys] and then end with [e],
    [forEach(callback, done)] drives the iterator as successive [next] calls
    do: what [length ys + 1] such calls would deliver to their callback, one
    delivery after the other, [forEach] hands on, [callback(value)] for a
    yielded value and [done(err)] or [done(null, value)] for the outcome.
    So [callback] is called once for each value of [ys], in order, then
    [done] once, with the error or with the value that the body returned;
    nothing is called after [done], and no task is left in the queue.  On
    an iterator that has completed, [done] is called once, with the error
    "iterated past end" that a [next] call would deliver, and [callback] is
    not called. *)
Theorem forEach_drives ys e callback done_ probe pending rest tr fuel :
  let s0 :=
    {| iterable := {| done := false; nextCallback := pending;
                      fiber := Some {| yields := ys; ending := e |} |};
       immediates := []; trace := tr |} in
  let completed :=
    {| iterable := {| done := true; nextCallback := pending; fiber := rest |};
       immediates := []; trace := tr |} in
  (∃ s deliveries,
     forEach [VFun callback; VFun done_] s0 = (Ok tt, s)
     ∧ trace (drive (S fuel) (replicate (S (length ys)) (VFun probe)) s0)
       = tr ++ deliveries
     ∧ deliveries
       = ((λ v, Called probe [VNull; item false v]) <$> ys)
         ++ [Called probe (outcome_args e)]
     ∧ trace (run (2 * length ys + 1 + fuel) s)
       = tr ++ (forwarded callback done_ <$> deliveries)
     ∧ trace (run (2 * length ys + 1 + fuel) s)
       = tr ++ ((λ v, Called callback [v]) <$> ys)
         ++ [Called done_ (done_args e)]
     ∧ immediates (run (2 * length ys + 1 + fuel) s) = []
     ∧ fiber (iterable (run (2 * length ys + 1 + fuel) s)) = None)
  ∧ (∃ s deliveries,
       forEach [VFun callback; VFun done_] completed = (Ok tt, s)
       ∧ trace (drive (S fuel) [VFun probe] completed) = tr ++ deliveries
       ∧ deliveries = [Called probe [VError (Error "iterated past end")]]
       ∧ trace (run (1 + fuel) s)
         = tr ++ (forwarded callback done_ <$> deliveries)
       ∧ trace (run (1 + fuel) s)
         = tr ++ [Called done_ [VError (Error "iterated past end")]]
       ∧ immediates (run (1 + fuel) s) = []).
Proof.
  intros s0 completed.
  set (cb := StepCallback (VFun callback) (Given (VFun done_))).
  split.
  - exists {| iterable := {| done := false; nextCallback := Some cb;
                             fiber := Some {| yields := ys; ending := e |} |};
              immediates := [invokeNext_task cb]; trace := tr |},
      (((λ v, Called probe [VNull; item false v]) <$> ys)
       ++ [Called probe (outcome_args e)]).
    split; [done|]. split; [unfold s0; by rewrite drive_probe|].
    split; [done|]. unfold cb. rewrite forEach_loop. cbn [trace immediates
      iterable fiber].
    split; [|done].
    rewrite fmap_app, <- list_fmap_compose.
    assert (Hvalues :
      forwarded callback done_ ∘ (λ v, Called probe [VNull; item false v])
        <$> ys
      = (λ v, Called callback [v]) <$> ys).
    { apply list_fmap_ext. intros i v _. cbn [compose].
      by rewrite forwarded_yielded. }
    rewrite Hvalues. cbn [fmap list_fmap]. by rewrite forwarded_outcome.
  - exists {| iterable := {| done := true; nextCallback := Some cb;
                             fiber := rest |};
              immediates := [invokeNext_task cb]; trace := tr |},
      [Called probe [VError (Error "iterated past end")]].
    split; [done|].
    split.
    { unfold completed. rewrite (drive_single (S fuel) probe), next_when_done.
      done. }
    split; [done|]. change (1 + fuel) with (S fuel). rewrite run_S.
    by rewrite run_idle.
Qed.

(** C8, as stated, fails on two kinds of iterator.  When a [next] call is
    pending ([iter.next(again)] and [iter.forEach(collect, finished)] in the
    same turn, on the body that yields four values), [collect] receives the
    four values and [finished] is called twice, with the result and then with
    "iterated past end".  On an iterator whose body has thrown,
    [forEach(collect, finished)] calls nothing: [finished] is never
    called. *)
Lemma forEach_calls_done_twice_or_never :
  let pending := next [VFun again] (invoke four_values) in
  let s := run 12 (forEach [VFun collect; VFun finished] pending).2 in
  let failed := run 1 (next [VFun again] (invoke out_of_range)) in
  let s' := run 12 (forEach [VFun collect; VFun finished] failed).2 in
  trace s
  = [Called collect [VNum 111]; Called collect [VNum 222];
     Called collect [VNum 333]; Called collect [VNum 444];
     Called finished [VNull; VStr "done"];
     Called finished [VError (Error "iterated past end")]]
  ∧ immediates s = []
  ∧ fiber (iterable failed) = None
  ∧ immediates failed = []
  ∧ trace failed = [Called again [VError (Error "out of range")]]
  ∧ trace s' = trace failed
  ∧ immediates s' = [].
Proof. repeat split. Qed.




(** C2.  After the body has thrown, the coroutine is terminal but [done] is
    still false ([throw] does not set it, [return] does): what a further
    [next] call queues takes the [resume] branch, and its callback does not
    receive "iterated past end". *)
Theorem next_after_throw_resumes :
  let s1 := run 1 (next [VFun finished] (invoke out_of_range)) in
  let s2 := run 1 (next [VFun again] s1) in
  trace s1 = [Called finished [VError (Error "out of range")]]
  ∧ fiber (iterable s1) = None
  ∧ done (iterable s1) = false
  ∧ run_task (invokeNext_task (Plain (Given (VFun again)))) s1 = resume s1
  ∧ trace s2 = trace s1
  ∧ immediates s2 = [].
Proof. repeat split. Qed.


End IterableCpsSpec.

(** ** Further properties of asyncBuilder.js and async/index.js *)
Module AsyncBuilderMore.
Import JS Pipeline AsyncBuilder Examples Api MoreExamples AsyncBuilderSpec.

#[local] Arguments captured : simpl never.
#[local] Arguments strict_parameters : simpl never.
#[local] Arguments embedded_names : simpl never.

Section Frames.
Context {host : Host}.

Lemma same_pipeline_refl w : same_pipeline w w.
Proof. by repeat split. Qed.

Lemma same_pipeline_set_heap h w w' :
  same_pipeline w w' → same_pipeline w (set_heap h w').
Proof. by intros (? & ? & ? & ? & ?). Qed.

Lemma mergeProps_subseteq w0 target source w :
  heap w0 !! target = None → heap w0 ⊆ heap w →
  heap w0 ⊆ heap (mergeProps target source w).
Proof. intros Hnew Hsub. rewrite heap_mergeProps. by apply insert_subseteq_r. Qed.

Lemma mergeProps_same_pipeline target source w :
  same_pipeline w (mergeProps target source w).
Proof. by repeat split. Qed.

Lemma createAsyncBuilder_frame factory options_ base w0 w :
  heap w0 ⊆ heap w →
  heap w0 ⊆ heap (createAsyncBuilder factory options_ base w).2
  ∧ same_pipeline w (createAsyncBuilder factory options_ base w).2.
Proof.
  intros Hsub. unfold createAsyncBuilder, alloc_object. cbv beta iota zeta.
  set (p := fresh (dom (heap w))).
  assert (Hp : heap w !! p = None) by (apply not_elem_of_dom, is_fresh).
  assert (Hp0 : heap w0 !! p = None).
  { destruct (heap w0 !! p) eqn:Hl; [|done].
    by rewrite (lookup_weaken _ _ _ _ Hl Hsub) in Hp. }
  set (w1 := set_heap (<[p := ∅]> (heap w)) w).
  assert (H1 : heap w0 ⊆ heap w1).
  { unfold w1. simpl. by apply insert_subseteq_r. }
  destruct (call_factory _ _ _) as [overrides|e|]; cbn [snd].
  - split.
    + apply mergeProps_subseteq; [done|]. by apply mergeProps_subseteq.
    + by repeat split.
  - split; [done|by repeat split].
  - split; [done|by repeat split].
Qed.

Lemma same_pipeline_trans w1 w2 w3 :
  same_pipeline w1 w2 → same_pipeline w2 w3 → same_pipeline w1 w3.
Proof.
  intros (? & ? & ? & ? & ?) (? & ? & ? & ? & ?).
  repeat split; by etrans.
Qed.

(** The world in which [derive] calls [createAsyncBuilder], for accepted
    arguments. *)
Lemma derive_accepted builder arguments w :
  isFunction (arguments_at arguments 0) = true ∨ length arguments = 1 →
  ∃ factory base w3,
    derive builder arguments w
    = createAsyncBuilder factory (fresh (dom (heap w))) base w3
    ∧ heap w ⊆ heap w3
    ∧ fresh (dom (heap w)) ∈ dom (heap w3)
    ∧ same_pipeline w w3.
Proof.
  intros Hok. unfold derive.
  assert (Hlen : 0 < length arguments).
  { destruct Hok as [Hfn| ->]; [|lia].
    destruct arguments; [done|simpl; lia]. }
  rewrite bool_decide_eq_true_2 by done. simpl.
  assert (Hcheck : isFunction (arguments_at arguments 0)
                   || bool_decide (length arguments = 1) = true).
  { destruct Hok as [Hc|Hc]; rewrite Hc; [done|].
    rewrite bool_decide_eq_true_2 by done. by rewrite orb_true_r. }
  rewrite Hcheck. clear Hok Hcheck. simpl.
  unfold alloc_object. cbv beta iota zeta.
  set (opts := fresh (dom (heap w))).
  assert (Hopts : heap w !! opts = None) by (apply not_elem_of_dom, is_fresh).
  eexists _, _, _. split; [reflexivity|].
  set (w1 := set_heap (<[opts := ∅]> (heap w)) w).
  assert (H1 : heap w ⊆ heap w1) by by apply insert_subseteq.
  set (w2 := if negb (isFunction (arguments_at arguments 0))
             then mergeProps opts (VRef (options builder)) w1 else w1).
  assert (H2 : heap w ⊆ heap w2 ∧ same_pipeline w w2).
  { unfold w2. destruct (negb _); [|by repeat split].
    split; [by apply mergeProps_subseteq|by repeat split]. }
  destruct H2 as [H2 Hsame2].
  split; [by apply mergeProps_subseteq|]. split.
  - rewrite heap_mergeProps. set_solver.
  - eapply same_pipeline_trans; [exact Hsame2|].
    apply mergeProps_same_pipeline.
Qed.

(** X1.  Whatever its arguments, and whether it returns a builder, fails on
    them or fails in the protocol factory, [derive] leaves the lock flag, the
    coroutine pool, the bound coroutines and the registrations as they were,
    and every object that existed before the call keeps its properties. *)
Theorem derive_keeps_pipeline builder arguments w :
  same_pipeline w (derive builder arguments w).2
  ∧ heap w ⊆ heap (derive builder arguments w).2.
Proof.
  destruct (decide (isFunction (arguments_at arguments 0) = true
                    ∨ length arguments = 1)) as [Hok|Hbad].
  - destruct (derive_accepted builder arguments w Hok)
      as (factory & base & w3 & -> & Hsub & _ & Hsame).
    destruct (createAsyncBuilder_frame factory (fresh (dom (heap w))) base
                w w3 Hsub) as (Hheap & Hsame').
    split; [by eapply same_pipeline_trans|done].
  - unfold derive.
    destruct (negb (bool_decide (0 < length arguments)));
      [split; [apply same_pipeline_refl|done]|].
    destruct (isFunction (arguments_at arguments 0)) eqn:Hfn; [tauto|].
    rewrite bool_decide_eq_false_2 by tauto. simpl.
    split; [apply same_pipeline_refl|done].
Qed.

(** X2.  [derive] fails with an assertion error and an untouched world
    exactly when its first argument is not a function and it was not given
    exactly one argument (no argument at all included): in every other case
    it has allocated the new options object before anything else can
    fail. *)
Theorem derive_validates_first builder arguments w :
  (∃ msg, derive builder arguments w = (Throw (AssertionError msg), w))
  ↔ isFunction (arguments_at arguments 0) = false ∧ length arguments ≠ 1.
Proof.
  split.
  - intros [msg Hderive].
    destruct (decide (isFunction (arguments_at arguments 0) = true
                      ∨ length arguments = 1)) as [Hok|Hbad].
    + exfalso.
      destruct (derive_accepted builder arguments w Hok)
        as (factory & base & w3 & Heq & _ & Hin & _).
      destruct (createAsyncBuilder_frame factory (fresh (dom (heap w))) base
                  w3 w3) as (Hheap & _); [done|].
      rewrite <- Heq, Hderive in Hheap. simpl in Hheap.
      apply (is_fresh (dom (heap w))).
      by eapply subseteq_dom.
    + split; [|tauto]. destruct (isFunction _); [tauto|done].
  - intros [Hfn Hlen]. unfold derive.
    destruct (bool_decide (0 < length arguments)); simpl; [|by eexists].
    rewrite Hfn, bool_decide_eq_false_2 by done. simpl. by eexists.
Qed.

End Frames.

Section Names.
Context {host : Host}.

Lemma check_param_names_ok_inv invokerParamNames invokeeParamNames :
  check_param_names invokerParamNames invokeeParamNames = Ok tt →
  Forall (λ p, p ∉ invokerParamNames) invokeeParamNames.
Proof.
  induction invokeeParamNames as [|p ps IH]; simpl; [by constructor|].
  unfold indexOf_is_minus1. case_bool_decide; [|done].
  intros Hrest. constructor; [done|by apply IH].
Qed.

Lemma strict_parameters_spec names :
  strict_parameters names = true
  ↔ NoDup names ∧ Forall (λ p, p ∉ strict_reserved_words) names.
Proof.
  unfold strict_parameters. rewrite andb_true_iff, bool_decide_eq_true.
  assert (forallb (λ p, bool_decide (p ∉ strict_reserved_words)) names = true
          ↔ Forall (λ p, p ∉ strict_reserved_words) names) as ->; [|done].
  induction names as [|p ps IH]; cbn [forallb].
  - split; [by constructor|done].
  - rewrite andb_true_iff, bool_decide_eq_true, IH, Forall_cons. done.
Qed.

(** X3.  When [protocol.invoke] is a function and the names are plain
    identifiers, the specialized strategy synthesizes a callable exactly
    when the parameter names of the invokee and those of the invoker (the
    parameters of [invoke] after the handle), taken together, are distinct
    and none is a word that strict mode reserves.  It fails with the
    naming-conflict error exactly when invokee and invoker share a name, and
    with a syntax error exactly when they share none and the parameter list
    is one that strict mode rejects. *)
Theorem fast_synthesis_succeeds_iff protocol invokee options w inv :
  get_invoke protocol w = Ok inv →
  let names := fn_params invokee ++ drop 1 (fn_params inv) in
  embedded_names ("suspendable_" +:+ fn_name invokee) names = true →
  let accepted :=
    NoDup names ∧ Forall (λ p, p ∉ strict_reserved_words) names in
  let shared :=
    Exists (λ p, p ∈ drop 1 (fn_params inv)) (fn_params invokee) in
  ((∃ f, createSuspendableFunctionFast protocol invokee options w = Ok f)
   ↔ accepted)
  ∧ ((∃ msg, createSuspendableFunctionFast protocol invokee options w
             = Throw (Error msg))
     ↔ shared)
  ∧ ((∃ msg, createSuspendableFunctionFast protocol invokee options w
             = Throw (SyntaxError msg))
     ↔ ¬ shared ∧ ¬ accepted).
Proof.
  intros Hinv names Hemb accepted shared.
  assert (Hcreate :
    createSuspendableFunctionFast protocol invokee options w
    = match check_param_names (drop 1 (fn_params inv)) (fn_params invokee) with
      | Ok _ =>
          if strict_parameters names
          then createSuspendableFunctionFast protocol invokee options w
          else Throw (SyntaxError "parameter list not allowed in strict mode code")
      | Throw e => Throw e
      | Unmodelled => Unmodelled
      end).
  { unfold createSuspendableFunctionFast at 1, getParamNames.
    rewrite (get_invoke_at_synthesis _ _ _ Hinv).
    destruct (check_param_names _ _) eqn:Hcheck; [|done..].
    unfold eval_source. cbn [src_name src_ARGS]. fold names. rewrite Hemb.
    cbn [negb]. destruct (strict_parameters names) eqn:Hstrict; [|done].
    destruct (createSuspendableFunctionFast_ok _ invokee options _ _ Hinv
                Hemb Hstrict) as [f Hf].
    rewrite Hf. unfold createSuspendableFunctionFast, getParamNames in Hf.
    rewrite (get_invoke_at_synthesis _ _ _ Hinv), Hcheck in Hf.
    unfold eval_source in Hf. cbn [src_name src_ARGS] in Hf.
    fold names in Hf. by rewrite Hemb, Hstrict in Hf. }
  assert (Hacc : strict_parameters names = true ↔ accepted)
    by apply strict_parameters_spec.
  destruct (decide shared) as [Hshared|Hshared].
  - destruct (check_param_names_shared _ _ Hshared) as (p & _ & _ & Hcheck).
    assert (Hnot : ¬ accepted).
    { intros [Hnd _]. apply NoDup_app_disjoint in Hnd.
      apply Exists_exists in Hshared as (q & Hq & Hq').
      rewrite Forall_forall in Hnd. by apply (Hnd q). }
    rewrite Hcheck in Hcreate. rewrite Hcreate.
    split; [|split].
    + split; [by intros [f Hf]|done].
    + split; [done|]. intros _. by eexists.
    + split; [by intros [msg Hmsg]|]. by intros [? _].
  - assert (Hdis : Forall (λ p, p ∉ drop 1 (fn_params inv)) (fn_params invokee)).
    { apply Forall_forall. intros q Hq Hq'. apply Hshared.
      apply Exists_exists. by exists q. }
    rewrite (check_param_names_disjoint _ _ Hdis) in Hcreate.
    destruct (strict_parameters names) eqn:Hstrict.
    + destruct (createSuspendableFunctionFast_ok _ invokee options _ _ Hinv
                  Hemb Hstrict) as [f Hf].
      rewrite Hf. split; [|split].
      * split; [intros _; by apply Hacc|]. intros _. by eexists.
      * split; [by intros [msg Hmsg]|done].
      * split; [by intros [msg Hmsg]|]. intros [_ Hnot].
        exfalso. by apply Hnot, Hacc.
    + rewrite Hcreate. split; [|split].
      * split; [by intros [f Hf]|]. intros Ha. apply Hacc in Ha. congruence.
      * split; [by intros [msg Hmsg]|done].
      * split; [|intros _; by eexists]. intros _. split; [done|].
        intros Ha. apply Hacc in Ha. congruence.
Qed.

Lemma check_param_names_first invokerParamNames before p after :
  Forall (λ q, q ∉ invokerParamNames) before →
  p ∈ invokerParamNames →
  check_param_names invokerParamNames (before ++ p :: after)
  = Throw (Error ("async builder: invoker and invokee both have a parameter named '"
                  +:+ p +:+ "'")).
Proof.
  intros Hbefore Hp. induction Hbefore as [|q qs Hq _ IH]; simpl.
  - unfold indexOf_is_minus1. by rewrite bool_decide_eq_false_2 by tauto.
  - unfold indexOf_is_minus1. by rewrite bool_decide_eq_true_2.
Qed.

(** X4.  The naming-conflict error names the first parameter of the
    invokee, in declaration order, that the invoker also has. *)
Theorem first_shared_name_is_reported protocol invokee options w inv
    before p after :
  get_invoke protocol w = Ok inv →
  fn_params invokee = before ++ p :: after →
  Forall (λ q, q ∉ drop 1 (fn_params inv)) before →
  p ∈ drop 1 (fn_params inv) →
  createSuspendableFunctionFast protocol invokee options w
  = Throw (Error ("async builder: invoker and invokee both have a parameter named '"
                  +:+ p +:+ "'")).
Proof.
  intros Hinv Hparams Hbefore Hp.
  unfold createSuspendableFunctionFast, getParamNames.
  by rewrite (get_invoke_at_synthesis _ _ _ Hinv), Hparams,
    (check_param_names_first _ _ _ _ Hbefore Hp).
Qed.

End Names.

Section Worlds.
Context {host : Host}.

Lemma acquireCoro_heap protocol body w :
  heap (acquireCoro protocol body w).2 = heap w.
Proof. unfold acquireCoro. by destruct (pool w). Qed.

Lemma acquireCoro_registered protocol body w :
  registered (acquireCoro protocol body w).2 = registered w.
Proof. unfold acquireCoro. by destruct (pool w). Qed.

Lemma get_invoke_acquireCoro p protocol body w :
  get_invoke p (acquireCoro protocol body w).2 = get_invoke p w.
Proof. unfold get_invoke. by rewrite acquireCoro_heap. Qed.

(** Every call ends in the world it started in, or in the one that
    [acquireCoro] returned. *)
Lemma call_world f this arguments w :
  (call f this arguments w).2 = w
  ∨ ∃ protocol body, (call f this arguments w).2 = (acquireCoro protocol body w).2.
Proof.
  destruct f as [protocol invokee k|src protocol invokee k]; simpl.
  - unfold call_slow.
    destruct (new_Array _); [|by left..]. destruct (new_Array _); [|by left..].
    right. eexists protocol, _.
    destruct (acquireCoro _ _ w) as [co w'] eqn:Hacq.
    rewrite invoke_world. by rewrite Hacq.
  - unfold call_fast. destruct (captured _); [by left|]. case_bool_decide.
    + right. eexists protocol, _.
      destruct (acquireCoro _ _ w) as [co w'] eqn:Hacq.
      rewrite invoke_world. by rewrite Hacq.
    + destruct (new_Array _); [|by left..].
      destruct (if src_SETUP_INVOKER_ARGS src then _ else _); [|by left..].
      right. eexists protocol, _.
      destruct (acquireCoro _ _ w) as [co w'] eqn:Hacq.
      destruct (src_CALL_INVOKER_apply src); rewrite invoke_world;
        by rewrite Hacq.
Qed.

(** A call touches neither objects nor lock nor registrations. *)
Lemma call_keeps_heap_and_lock f this arguments w :
  heap (call f this arguments w).2 = heap w
  ∧ isLocked (call f this arguments w).2 = isLocked w
  ∧ registered (call f this arguments w).2 = registered w.
Proof.
  destruct (call_world f this arguments w) as [->|(protocol & body & ->)];
    [done|].
  by rewrite acquireCoro_heap, acquireCoro_isLocked, acquireCoro_registered.
Qed.

End Worlds.

Section Protocols.
Context {host : Host}.

(** X5.  Under a protocol whose [invoke] declares the coroutine handle and
    nothing else, the generic strategy for every invokee, and the
    specialized strategy for every invokee with well-formed names, produce a
    function that accepts any number of arguments: it never fails with a
    range error, forwards all of its arguments, in order, to the invokee,
    and passes [protocol.invoke] the handle alone. *)
Theorem handle_only_protocol_forwards_everything protocol invokee options
    w0 inv this arguments w :
  get_invoke protocol w0 = Ok inv →
  length (fn_params inv) = 1 →
  DEBUG = true ∨ well_formed_names invokee inv = true →
  ∃ f body this_,
    createSuspendableFunction protocol invokee options w0 = Ok f
    ∧ call f this arguments w
      = (let '(co, w') := acquireCoro protocol body w in
         invoke protocol this_ [VCoro co] w')
    ∧ body_fn body = invokee
    ∧ body_args body = arguments.
Proof.
  intros Hinv Harity Hnames.
  assert (Hk : (length_of inv - 1 = 0)%Z) by (unfold length_of; lia).
  unfold createSuspendableFunction. destruct DEBUG eqn:Hdebug.
  - exists (suspendable protocol invokee 0),
      (b1 invokee (sloppy_this this) arguments), VNull.
    split.
    { unfold createSuspendableFunctionSlow.
      by rewrite (get_invoke_at_synthesis _ _ _ Hinv), Hk. }
    cbn [call]. rewrite call_slow_spec by lia.
    replace (Z.to_nat (Z.of_nat (length arguments) - 0)) with (length arguments)
      by lia.
    by rewrite take_ge, drop_ge by lia.
  - destruct Hnames as [|Hnames]; [done|].
    destruct (well_formed_names_inv _ _ Hnames) as (Hemb & Hstrict & Hcap).
    destruct (createSuspendableFunctionFast_ok _ invokee options _ _ Hinv
                Hemb Hstrict) as [f Hf].
    destruct (call_fast_spec protocol invokee options w0 inv f this arguments w)
      as (body & Hcall & Hfn & Hargs & _); try done; [lia..|].
    exists f, body, (VRef protocol). split; [exact Hf|].
    rewrite Hk in Hcall, Hargs.
    replace (Z.to_nat (Z.of_nat (length arguments) - 0)) with (length arguments)
      in Hcall, Hargs by lia.
    rewrite (drop_ge arguments) in Hcall by lia.
    rewrite (take_ge arguments) in Hargs by lia.
    change (0 =? 0)%Z with true in Hcall. rewrite orb_true_r in Hcall.
    split; [exact Hcall|done].
Qed.

Lemma arguments_at_seq_past_end arguments :
  arguments_at arguments <$> seq 0 (S (length arguments))
  = arguments ++ [VUndefined].
Proof.
  rewrite seq_S, fmap_app, arguments_at_seq by lia.
  rewrite drop_0, take_ge by lia. simpl. f_equal.
  unfold arguments_at. by rewrite lookup_ge_None_2.
Qed.

(** X6.  When [protocol.invoke] declares no parameter at all,
    [invokerArgCount] is -1: the generic function then forwards the [N]
    arguments of a call followed by one [undefined] to the invokee, and
    passes [protocol.invoke] the handle alone. *)
Theorem handleless_invoke_pads_arguments protocol invokee options w0 inv
    this arguments w :
  get_invoke protocol w0 = Ok inv →
  fn_params inv = [] →
  createSuspendableFunctionSlow protocol invokee options w0
  = Ok (suspendable protocol invokee (-1))
  ∧ call (suspendable protocol invokee (-1)) this arguments w
    = (let '(co, w') :=
         acquireCoro protocol
           (b1 invokee (sloppy_this this) (arguments ++ [VUndefined])) w in
       invoke protocol VNull [VCoro co] w').
Proof.
  intros Hinv Hparams. split.
  - unfold createSuspendableFunctionSlow, length_of.
    by rewrite (get_invoke_at_synthesis _ _ _ Hinv), Hparams.
  - simpl. unfold call_slow.
    rewrite !new_Array_ok by lia.
    replace (Z.to_nat (Z.of_nat (length arguments) - -1))
      with (S (length arguments)) by lia.
    rewrite copy_arguments_spec by (rewrite length_replicate; lia).
    rewrite take_0, drop_ge by (rewrite length_replicate; lia).
    rewrite app_nil_r, app_nil_l, arguments_at_seq_past_end.
    by destruct (acquireCoro _ _ _).
Qed.

(** X7.  Under a protocol that still has the bootstrap [invoke], the
    generic strategy for every invokee, and the specialized strategy for
    every invokee with well-formed names, produce a function of which every
    call, whatever its arguments, first takes a coroutine from the pipeline
    and then fails with "invoke: not supported by this type of suspendable
    function". *)
Theorem placeholder_invoke_always_throws protocol invokee options w0
    this arguments w :
  get_invoke protocol w0 = Ok bootstrap_invoke →
  get_invoke protocol w = Ok bootstrap_invoke →
  DEBUG = true ∨ well_formed_names invokee bootstrap_invoke = true →
  ∃ f,
    createSuspendableFunction protocol invokee options w0 = Ok f
    ∧ ∃ body,
        call f this arguments w
        = (Throw (Error "invoke: not supported by this type of suspendable function"),
           (acquireCoro protocol body w).2).
Proof.
  intros Hinv0 Hinv Hnames.
  assert (Hthrows : ∀ body this_ args,
    (let '(co, w') := acquireCoro protocol body w in
     invoke protocol this_ (args co) w')
    = (Throw (Error "invoke: not supported by this type of suspendable function"),
       (acquireCoro protocol body w).2)).
  { intros body this_ args.
    destruct (acquireCoro protocol body w) as [co w'] eqn:Hacq.
    unfold invoke.
    replace (get_invoke protocol w') with (Ok bootstrap_invoke : result JsFunction).
    2:{ rewrite <- Hinv. change w' with (co, w').2. rewrite <- Hacq.
        by rewrite get_invoke_acquireCoro. }
    by rewrite decide_True. }
  unfold createSuspendableFunction. destruct DEBUG eqn:Hdebug.
  - unfold createSuspendableFunctionSlow.
    rewrite (get_invoke_at_synthesis _ _ _ Hinv0).
    eexists. split; [reflexivity|]. simpl. unfold call_slow.
    change (length_of bootstrap_invoke - 1)%Z with 0%Z.
    rewrite (new_Array_ok (Z.of_nat (length arguments) - 0)) by lia.
    change (new_Array (0 + 1)) with (Ok [VUndefined] : result (list value)).
    cbv iota. eexists.
    apply (Hthrows _ VNull (λ co, array_set _ 0 (VCoro co))).
  - destruct Hnames as [|Hnames]; [done|].
    destruct (well_formed_names_inv _ _ Hnames) as (Hemb & Hstrict & Hcap).
    destruct (createSuspendableFunctionFast_ok _ invokee options _ _ Hinv0
                Hemb Hstrict) as [f Hf].
    exists f. split; [exact Hf|].
    rewrite (createSuspendableFunctionFast_inv _ _ _ _ _ _ Hinv0 Hf).
    cbn [call]. unfold call_fast.
    cbn [src_ARGS src_ARGCOUNT src_bodyNoThis src_bodyWithThis src_FASTPATH
         src_SETUP_INVOKER_ARGS src_CALL_INVOKER_apply].
    rewrite Hcap.
    change (length_of bootstrap_invoke - 1)%Z with 0%Z.
    change (drop 1 (fn_params bootstrap_invoke)) with ([] : list string).
    cbn [negb Z.eqb fmap list_fmap].
    case_bool_decide.
    + eexists. apply (Hthrows _ (VRef protocol) (λ co, [VCoro co])).
    + rewrite new_Array_ok by lia. eexists.
      apply (Hthrows _ (VRef protocol) (λ co, [VCoro co])).
Qed.

Lemma merge_object_empty_r target : merge_object target ∅ = target.
Proof. unfold merge_object. apply (left_id _ _). Qed.

(** X8.  The protocol that [createAsyncBuilder] assembles has the [invoke]
    that the factory returned, when it returned one, and the base protocol's
    [invoke] otherwise; a factory result whose [invoke] is not a function
    leaves the protocol without a callable [invoke]. *)
Theorem derived_protocol_layers_invoke factory options_ base w overrides inv :
  options_ ∈ dom (heap w) → base ∈ dom (heap w) → live w overrides →
  call_factory factory (props_of (VRef options_) w) (props_of (VRef base) w)
  = Ok overrides →
  get_invoke base w = Ok inv →
  ∃ builder w',
    createAsyncBuilder factory options_ base w = (Ok builder, w')
    ∧ baseProtocol builder = base
    ∧ get_invoke (protocol builder) w'
      = match props_of overrides w !! "invoke" with
        | None => Ok inv
        | Some (VFun f) => Ok f
        | Some _ => Throw (TypeError "protocol.invoke is not a function")
        end.
Proof.
  intros Hopt Hbase Hlive Hfactory Hinv.
  destruct (createAsyncBuilder_spec factory options_ base w overrides)
    as (p & w' & Hcreate & Hp & Hheap & _); try done.
  eexists _, w'. split; [exact Hcreate|]. split; [done|]. simpl.
  unfold get_invoke in *. rewrite Hheap, lookup_insert_eq.
  unfold merge_object. rewrite lookup_union_with.
  apply elem_of_dom in Hbase as [obj Hobj].
  simpl. rewrite Hobj in *. simpl.
  destruct (props_of overrides w !! "invoke") as [later|] eqn:Hlater;
    destruct (obj !! "invoke") as [earlier|] eqn:Hearlier; simpl.
  - unfold merge_value. destruct later; try done; destruct earlier; try done.
  - by destruct later.
  - done.
  - done.
Qed.

End Protocols.

Section Entry.
Context {host : Host}.

(** X9.  When the [_.empty] factory returns nothing to merge, the module's
    bootstrap builder has empty options and a protocol made of the four
    placeholder operations, so that its [invoke] is the bootstrap [invoke];
    the objects that existed before are unchanged. *)
Theorem bootstrap_builder_has_placeholders w overrides :
  call_factory empty ∅ bootstrap_protocol = Ok overrides →
  live w overrides →
  props_of overrides w = ∅ →
  ∃ builder w',
    bootstrap w = (Ok builder, w')
    ∧ protocolFactory builder = empty
    ∧ heap w' !! options builder = Some ∅
    ∧ heap w' !! baseProtocol builder = Some bootstrap_protocol
    ∧ heap w' !! protocol builder = Some bootstrap_protocol
    ∧ get_invoke (protocol builder) w' = Ok bootstrap_invoke
    ∧ heap w ⊆ heap w'.
Proof.
  intros Hfactory Hlive Hnone.
  unfold bootstrap, alloc_object, alloc_literal. cbv beta iota zeta.
  set (o := fresh (dom (heap w))).
  set (w1 := set_heap (<[o := ∅]> (heap w)) w).
  set (b := fresh (dom (heap w1))).
  set (w2 := set_heap (<[b := bootstrap_protocol]> (heap w1)) w1).
  assert (Ho : o ∉ dom (heap w)) by apply is_fresh.
  assert (Hb : b ∉ dom (heap w1)) by apply is_fresh.
  assert (Hne : b ≠ o).
  { intros Heq. apply Hb. rewrite Heq. unfold w1. simpl. set_solver. }
  assert (H1 : heap w ⊆ heap w1) by by apply insert_fresh_subseteq.
  assert (H2 : heap w1 ⊆ heap w2) by by apply insert_fresh_subseteq.
  assert (Hsub : heap w ⊆ heap w2) by by etrans.
  assert (Hwo : heap w2 !! o = Some ∅).
  { unfold w2, w1. simpl. by rewrite lookup_insert_ne, lookup_insert_eq. }
  assert (Hwb : heap w2 !! b = Some bootstrap_protocol).
  { unfold w2. simpl. by rewrite lookup_insert_eq. }
  destruct (createAsyncBuilder_spec empty o b w2 overrides)
    as (p & w' & Hcreate & Hp & Hheap & _).
  { by apply elem_of_dom. } { by apply elem_of_dom. }
  { by eapply live_weaken. }
  { unfold props_of. by rewrite Hwo, Hwb. }
  rewrite (props_of_live overrides w w2), Hnone in Hheap by done.
  rewrite merge_object_empty_r in Hheap. unfold props_of in Hheap.
  rewrite Hwb in Hheap. cbn [default] in Hheap.
  assert (Hpo : p ≠ o) by (intros ->; apply Hp; by apply elem_of_dom).
  assert (Hpb : p ≠ b) by (intros ->; apply Hp; by apply elem_of_dom).
  eexists _, w'. split; [exact Hcreate|]. simpl.
  repeat split.
  - by rewrite Hheap, lookup_insert_ne.
  - by rewrite Hheap, lookup_insert_ne.
  - by rewrite Hheap, lookup_insert_eq.
  - unfold get_invoke. by rewrite Hheap, lookup_insert_eq.
  - rewrite Hheap. etrans; [exact Hsub|]. by apply insert_fresh_subseteq.
Qed.

Lemma asyncBuilder_world builder arguments w :
  (asyncBuilder builder arguments w).2 = set_isLocked true w.
Proof.
  unfold asyncBuilder. destruct (negb _); [done|].
  by destruct (arguments_at arguments 0).
Qed.

(** X10.  The entry function [api] checks its argument count before it
    calls a builder: with any count other than one it fails with "async:
    expected a single argument" and leaves the pipeline as it was, lock
    included; with exactly one argument it behaves as the configured builder
    (the bootstrap builder when none is configured) called with that
    argument, which sets the lock whether or not the argument is a
    function. *)
Theorem api_locks_iff_single_argument defaults_async asyncBuilder_
    arguments w :
  api defaults_async asyncBuilder_ arguments w
  = (if bool_decide (length arguments = 1)
     then asyncBuilder (default asyncBuilder_ defaults_async) arguments w
     else (Throw (AssertionError "async: expected a single argument"), w))
  ∧ (api defaults_async asyncBuilder_ arguments w).2
    = (if bool_decide (length arguments = 1) then set_isLocked true w else w).
Proof.
  unfold api. case_bool_decide as Hlen; simpl; [|done].
  destruct arguments as [|v [|]]; try done.
  split; [done|]. apply asyncBuilder_world.
Qed.

End Entry.

Section Receiver.
Context {host : Host}.

(** X11.  For an invokee and an invoker with well-formed names, the
    function that the specialized strategy produces, called with exactly as
    many arguments as the invokee and the invoker declare, takes its fast
    path: the body calls the invokee on the leading arguments without a
    receiver when [this] is falsy or the global object, and with [this] as
    receiver otherwise, and [protocol.invoke] is called as a method of the
    protocol with the handle and the trailing arguments. *)
Theorem fast_path_receiver protocol invokee options w0 inv this arguments w :
  get_invoke protocol w0 = Ok inv →
  well_formed_names invokee inv = true →
  length arguments
  = length (fn_params invokee) + length (drop 1 (fn_params inv)) →
  ∃ f body,
    createSuspendableFunctionFast protocol invokee options w0 = Ok f
    ∧ call f this arguments w
      = (let '(co, w') := acquireCoro protocol body w in
         invoke protocol (VRef protocol)
           (VCoro co :: drop (length (fn_params invokee)) arguments) w')
    ∧ body_fn body = invokee
    ∧ body_args body = take (length (fn_params invokee)) arguments
    ∧ body_this body
      = if negb (truthy this) || is_global this then VUndefined else this.
Proof.
  intros Hinv Hnames Hcount.
  destruct (well_formed_names_inv _ _ Hnames) as (Hemb & Hstrict & Hcap).
  assert (Hnd := strict_parameters_NoDup _ Hstrict).
  destruct (createSuspendableFunctionFast_ok _ invokee options _ _ Hinv
              Hemb Hstrict) as [f Hf].
  assert (Heq := createSuspendableFunctionFast_inv _ _ _ _ _ _ Hinv Hf).
  cbv zeta in Heq. subst f. eexists. eexists. split; [exact Hf|]. clear Hf.
  set (ps := fn_params invokee) in *. set (qs := drop 1 (fn_params inv)) in *.
  cbn [call]. unfold call_fast.
  cbn [src_ARGS src_ARGCOUNT src_bodyNoThis src_bodyWithThis src_FASTPATH
       src_SETUP_INVOKER_ARGS src_CALL_INVOKER_apply].
  rewrite Hcap.
  rewrite (bool_decide_eq_true_2 (length arguments = length (ps ++ qs)))
    by (by rewrite length_app).
  rewrite param_app_r, arguments_at_seq by (done || lia).
  rewrite (take_ge _ (length qs)) by (rewrite length_drop; lia).
  split; [reflexivity|].
  assert (Hargs : param (ps ++ qs) arguments <$> ps
                  = take (length ps) arguments).
  { rewrite param_app_l, arguments_at_seq by (done || lia). by rewrite drop_0. }
  destruct (negb (truthy this) || is_global this).
  - case_bool_decide as Hps; cbn [body_fn body_args body_this];
      unfold ps, qs in *.
    + by rewrite Hps, take_0.
    + by rewrite Hargs.
  - cbn [body_fn body_args body_this]. unfold ps, qs in *. by rewrite Hargs.
Qed.

End Receiver.

(** *** Concrete instances *)

(** [fast_synthesis_succeeds_iff] at [twice(x, x)] under
    [invoke(co, callback)]: no name is shared, and strict mode rejects the
    parameter list. *)
Lemma fast_synthesis_succeeds_iff_witness :
  get_invoke 2 example_world = Ok cps_invoke
  ∧ embedded_names ("suspendable_" +:+ fn_name twice)
      (fn_params twice ++ drop 1 (fn_params cps_invoke)) = true
  ∧ ∃ msg,
      createSuspendableFunctionFast 2 twice 3 example_world
      = Throw (SyntaxError msg).
Proof.
  split; [reflexivity|]. split; [reflexivity|].
  destruct (fast_synthesis_succeeds_iff 2 twice 3 example_world cps_invoke
              eq_refl eq_refl) as (_ & _ & Hsyntax).
  apply Hsyntax. refine (bool_decide_unpack _ _). vm_compute. exact I.
Defined.

(** [first_shared_name_is_reported] at [relay(a, callback, b)]. *)
Lemma first_shared_name_is_reported_witness :
  get_invoke 2 example_world = Ok cps_invoke
  ∧ fn_params relay = ["a"] ++ "callback" :: ["b"]
  ∧ Forall (λ q, q ∉ drop 1 (fn_params cps_invoke)) ["a"]
  ∧ "callback" ∈ drop 1 (fn_params cps_invoke)
  ∧ createSuspendableFunctionFast 2 relay 3 example_world
    = Throw (Error "async builder: invoker and invokee both have a parameter named 'callback'").
Proof.
  assert (Hbefore : Forall (λ q, q ∉ drop 1 (fn_params cps_invoke)) ["a"]).
  { refine (bool_decide_unpack _ _). vm_compute. exact I. }
  assert (Hp : "callback" ∈ drop 1 (fn_params cps_invoke)).
  { refine (bool_decide_unpack _ _). vm_compute. exact I. }
  split; [reflexivity|]. split; [reflexivity|].
  split; [exact Hbefore|]. split; [exact Hp|].
  exact (first_shared_name_is_reported 2 relay 3 example_world cps_invoke
           ["a"] "callback" ["b"] eq_refl eq_refl Hbefore Hp).
Defined.

(** [handle_only_protocol_forwards_everything] at the bootstrap protocol
    (object 0), whose [invoke] declares the handle alone, under the
    specialized strategy. *)
Lemma handle_only_protocol_forwards_everything_witness :
  get_invoke 0 example_world = Ok bootstrap_invoke
  ∧ length (fn_params bootstrap_invoke) = 1
  ∧ well_formed_names add bootstrap_invoke = true
  ∧ ∃ f body this_,
      createSuspendableFunction (host := example_host false) 0 add 1
        example_world = Ok f
      ∧ call (host := example_host false) f VUndefined
          [VNum 1; VNum 2; VNum 3] example_world
        = (let '(co, w') := acquireCoro 0 body example_world in
           invoke (host := example_host false) 0 this_ [VCoro co] w')
      ∧ body_fn body = add
      ∧ body_args body = [VNum 1; VNum 2; VNum 3].
Proof.
  split; [reflexivity|]. split; [reflexivity|]. split; [reflexivity|].
  exact (handle_only_protocol_forwards_everything
           (host := example_host false) 0 add 1 example_world
           bootstrap_invoke VUndefined [VNum 1; VNum 2; VNum 3]
           example_world eq_refl eq_refl (or_intror eq_refl)).
Defined.

(** [handleless_invoke_pads_arguments] at [add] called with two arguments. *)
Lemma handleless_invoke_pads_arguments_witness :
  get_invoke 0 handleless_world = Ok handleless_invoke
  ∧ fn_params handleless_invoke = []
  ∧ call (host := example_host true) (suspendable 0 add (-1)) VUndefined
      [VNum 1; VNum 2] handleless_world
    = (let '(co, w') :=
         acquireCoro 0 (b1 add VGlobal [VNum 1; VNum 2; VUndefined])
           handleless_world in
       invoke (host := example_host true) 0 VNull [VCoro co] w').
Proof.
  split; [reflexivity|]. split; [reflexivity|].
  exact (proj2 (handleless_invoke_pads_arguments (host := example_host true)
                  0 add 1 handleless_world handleless_invoke VUndefined
                  [VNum 1; VNum 2] handleless_world eq_refl eq_refl)).
Defined.

(** [placeholder_invoke_always_throws] at the bootstrap protocol, under the
    specialized strategy. *)
Lemma placeholder_invoke_always_throws_witness :
  get_invoke 0 example_world = Ok bootstrap_invoke
  ∧ well_formed_names add bootstrap_invoke = true
  ∧ ∃ f,
      createSuspendableFunction (host := example_host false) 0 add 1
        example_world = Ok f
      ∧ ∃ body,
          call (host := example_host false) f VUndefined [VNum 1; VNum 2]
            example_world
          = (Throw (Error "invoke: not supported by this type of suspendable function"),
             (acquireCoro 0 body example_world).2).
Proof.
  split; [reflexivity|]. split; [reflexivity|].
  exact (placeholder_invoke_always_throws (host := example_host false) 0 add 1
           example_world VUndefined [VNum 1; VNum 2] example_world
           eq_refl eq_refl (or_intror eq_refl)).
Defined.

(** [derived_protocol_layers_invoke] at a factory that supplies
    [invoke(co, callback)] over the bootstrap protocol. *)
Lemma derived_protocol_layers_invoke_witness :
  3 ∈ dom (heap example_world)
  ∧ 0 ∈ dom (heap example_world)
  ∧ get_invoke 0 example_world = Ok bootstrap_invoke
  ∧ ∃ builder w',
      createAsyncBuilder (host := example_host false) cps_factory 3 0
        example_world = (Ok builder, w')
      ∧ baseProtocol builder = 0
      ∧ get_invoke (protocol builder) w' = Ok cps_invoke.
Proof.
  assert (H3 : 3 ∈ dom (heap example_world)) by (apply elem_of_dom; by eexists).
  assert (H0 : 0 ∈ dom (heap example_world)) by (apply elem_of_dom; by eexists).
  split; [exact H3|]. split; [exact H0|]. split; [reflexivity|].
  exact (derived_protocol_layers_invoke (host := example_host false)
           cps_factory 3 0 example_world
           (VObj {[ "invoke" := VFun cps_invoke ]}) bootstrap_invoke
           H3 H0 I eq_refl eq_refl).
Defined.

(** [bootstrap_builder_has_placeholders] in an empty world. *)
Lemma bootstrap_builder_has_placeholders_witness :
  call_factory (Host := plain_host) empty ∅ bootstrap_protocol = Ok VUndefined
  ∧ live empty_world VUndefined
  ∧ props_of VUndefined empty_world = ∅
  ∧ ∃ builder w',
      bootstrap (host := plain_host) empty_world = (Ok builder, w')
      ∧ protocolFactory builder = empty
      ∧ heap w' !! options builder = Some ∅
      ∧ heap w' !! baseProtocol builder = Some bootstrap_protocol
      ∧ heap w' !! protocol builder = Some bootstrap_protocol
      ∧ get_invoke (protocol builder) w' = Ok bootstrap_invoke
      ∧ heap empty_world ⊆ heap w'.
Proof.
  split; [reflexivity|]. split; [exact I|]. split; [reflexivity|].
  exact (bootstrap_builder_has_placeholders (host := plain_host) empty_world
           VUndefined eq_refl I eq_refl).
Defined.

(** [fast_path_receiver] at [add], called as a plain function with its three
    declared arguments. *)
Lemma fast_path_receiver_witness :
  get_invoke 2 example_world = Ok cps_invoke
  ∧ well_formed_names add cps_invoke = true
  ∧ length [VNum 1; VNum 2; VFun finished]
    = length (fn_params add) + length (drop 1 (fn_params cps_invoke))
  ∧ ∃ f body,
      createSuspendableFunctionFast 2 add 3 example_world = Ok f
      ∧ call (host := example_host false) f VUndefined
          [VNum 1; VNum 2; VFun finished] example_world
        = (let '(co, w') := acquireCoro 2 body example_world in
           invoke (host := example_host false) 2 (VRef 2)
             [VCoro co; VFun finished] w')
      ∧ body_args body = [VNum 1; VNum 2]
      ∧ body_this body = VUndefined.
Proof.
  split; [reflexivity|]. split; [reflexivity|]. split; [reflexivity|].
  destruct (fast_path_receiver (host := example_host false) 2 add 3
              example_world cps_invoke VUndefined
              [VNum 1; VNum 2; VFun finished] example_world
              eq_refl eq_refl eq_refl)
    as (f & body & Hf & Hcall & _ & Hargs & Hthis).
  exists f, body. split; [exact Hf|]. split; [exact Hcall|].
  split; [exact Hargs|exact Hthis].
Defined.

End AsyncBuilderMore.

(** ** Further properties of iterable.cps.js *)
Module IterableCpsMore.
Import JS IterableCps Examples Consumer IterableCpsSpec.

#[local] Arguments item : simpl never.
#[local] Arguments call_fn : simpl never.
#[local] Arguments or_nullFunc : simpl never.
#[local] Arguments stepResolved : simpl never.

(** X12.  [forEach] throws, and leaves the iterator as it was, exactly when
    its first argument is not a function (no argument at all included). *)
Theorem forEach_validates_callback arguments s :
  (∃ e, forEach arguments s = (Throw e, s))
  ↔ isFunction (arguments_at arguments 0) = false.
Proof.
  unfold forEach. split.
  - intros [e He]. case_bool_decide as Hlen.
    + by destruct arguments; [|simpl in Hlen; lia].
    + by destruct (isFunction (arguments_at arguments 0)).
  - intros Hfn. case_bool_decide; [by eexists|].
    rewrite Hfn. by eexists.
Qed.

(** Calling a callback changes the trace and the queue, not the coroutine. *)
Lemma iterable_call_fn f args s : iterable (call_fn f args s) = iterable s.
Proof. unfold call_fn. destruct f as [|[]]; done. Qed.

Lemma iterable_call_callback cb args s :
  iterable (call_callback cb args s) = iterable s.
Proof.
  destruct cb as [f|callback done_]; simpl; [apply iterable_call_fn|].
  destruct (truthy _); [apply iterable_call_fn|].
  unfold stepResolved. destruct (arguments_at args 1); try done.
  destruct (truthy _); [apply iterable_call_fn|].
  by destruct callback.
Qed.

Lemma forEach_iterable arguments s :
  done (iterable (forEach arguments s).2) = done (iterable s)
  ∧ fiber (iterable (forEach arguments s).2) = fiber (iterable s)
  ∧ trace (forEach arguments s).2 = trace s.
Proof.
  unfold forEach. case_bool_decide; [done|]. by destruct (negb _).
Qed.

(** X13.  As long as the event loop does not turn, calls of [next] and
    [forEach], however many, run no part of the body and call no function of
    the consumer. *)
Theorem calls_alone_run_nothing actions s :
  forallb is_call actions = true →
  trace (perform_all actions s) = trace s
  ∧ fiber (iterable (perform_all actions s)) = fiber (iterable s)
  ∧ done (iterable (perform_all actions s)) = done (iterable s).
Proof.
  revert s. induction actions as [|a actions IH]; intros s Hcalls; [done|].
  simpl in Hcalls. apply andb_prop in Hcalls as [Ha Hcalls].
  simpl. destruct (IH (perform a s) Hcalls) as (-> & -> & ->).
  destruct a as [arguments|arguments|fuel]; try done. simpl.
  destruct (forEach_iterable arguments s) as (? & ? & ?). done.
Qed.

Lemma run_task_done t s :
  done (iterable s) = true →
  iterable (run_task t s)
  = match t with
    | invokeNext_task _ => iterable s
    | stepNext callback done_ =>
        {| done := true; nextCallback := Some (StepCallback callback done_);
           fiber := fiber (iterable s) |}
    end.
Proof.
  intros Hdone. destruct t as [cb|callback done_]; simpl.
  - rewrite Hdone. apply iterable_call_callback.
  - by rewrite Hdone.
Qed.

Lemma run_done fuel : ∀ s,
  done (iterable s) = true →
  done (iterable (run fuel s)) = true
  ∧ fiber (iterable (run fuel s)) = fiber (iterable s).
Proof.
  induction fuel as [|fuel IH]; intros s Hdone; [done|].
  simpl. destruct (immediates s) as [|t rest]; [done|].
  set (s' := {| iterable := iterable s; immediates := rest; trace := trace s |}).
  assert (Hrun := run_task_done t s' Hdone).
  assert (Hdone' : done (iterable (run_task t s')) = true).
  { rewrite Hrun. by destruct t. }
  destruct (IH (run_task t s') Hdone') as [-> ->].
  split; [done|]. rewrite Hrun. by destruct t.
Qed.

Lemma perform_done a s :
  done (iterable s) = true →
  done (iterable (perform a s)) = true
  ∧ fiber (iterable (perform a s)) = fiber (iterable s).
Proof.
  intros Hdone. destruct a as [arguments|arguments|fuel]; simpl.
  - done.
  - destruct (forEach_iterable arguments s) as (-> & -> & _). done.
  - by apply run_done.
Qed.

(** X14.  Once [done] is set, nothing that a consumer does (calls of
    [next], calls of [forEach], turns of the event loop) clears it, and the
    body is never resumed again. *)
Theorem done_is_permanent actions s :
  done (iterable s) = true →
  done (iterable (perform_all actions s)) = true
  ∧ fiber (iterable (perform_all actions s)) = fiber (iterable s).
Proof.
  revert s. induction actions as [|a actions IH]; intros s Hdone; [done|].
  simpl. destruct (perform_done a s Hdone) as [Hdone' Hfiber'].
  destruct (IH (perform a s) Hdone') as [-> ->]. done.
Qed.


Lemma iterable_call_nextCallback args s :
  iterable (call_nextCallback args s) = iterable s.
Proof.
  unfold call_nextCallback. destruct (nextCallback (iterable s)); [|done].
  apply iterable_call_callback.
Qed.

Lemma resume_keeps_invariant s :
  done (iterable s) = false →
  done (iterable (resume s)) = false ∨ fiber (iterable (resume s)) = None.
Proof.
  intros Hdone. unfold resume.
  destruct (fiber (iterable s)) as [func|] eqn:Hfiber; [|by left].
  destruct (yields func) as [|v rest].
  - right. destruct (ending func); unfold return_, throw;
      by rewrite iterable_call_nextCallback.
  - left. unfold yield. by rewrite iterable_call_nextCallback.
Qed.

Lemma run_task_keeps_invariant t s :
  done (iterable s) = false ∨ fiber (iterable s) = None →
  done (iterable (run_task t s)) = false
  ∨ fiber (iterable (run_task t s)) = None.
Proof.
  intros Hinv. destruct t as [cb|callback done_]; simpl; [|done].
  destruct (done (iterable s)) eqn:Hdone.
  - rewrite iterable_call_callback. destruct Hinv as [?|?]; [congruence|].
    by right.
  - by apply resume_keeps_invariant.
Qed.

Lemma run_keeps_invariant fuel : ∀ s,
  done (iterable s) = false ∨ fiber (iterable s) = None →
  done (iterable (run fuel s)) = false ∨ fiber (iterable (run fuel s)) = None.
Proof.
  induction fuel as [|fuel IH]; intros s Hinv; [done|].
  simpl. destruct (immediates s) as [|t rest]; [done|].
  apply IH. by apply run_task_keeps_invariant.
Qed.

Lemma perform_all_keeps_invariant actions : ∀ s,
  done (iterable s) = false ∨ fiber (iterable s) = None →
  done (iterable (perform_all actions s)) = false
  ∨ fiber (iterable (perform_all actions s)) = None.
Proof.
  induction actions as [|a actions IH]; intros s Hinv; [done|].
  simpl. apply IH. destruct a as [arguments|arguments|fuel]; simpl.
  - done.
  - by destruct (forEach_iterable arguments s) as (-> & -> & _).
  - by apply run_keeps_invariant.
Qed.

(** X15.  Whatever a consumer does with an iterator, from its creation on,
    [done] is set only once the body has ended: "iterated past end" is never
    reported while the body has something left to run. *)
Theorem done_only_after_the_body_ended func actions :
  done (iterable (perform_all actions (invoke func))) = false
  ∨ fiber (iterable (perform_all actions (invoke func))) = None.
Proof. apply perform_all_keeps_invariant. by left. Qed.



(** X17.  For a body that yields [ys] and returns [result], successive
    [next] calls with function callbacks deliver [{done: false, value}] for
    each value of [ys] to the callback of the corresponding call, then
    [{done: true, value: result}] to the next one, and the error "iterated
    past end" to the callback of every call after that. *)
Theorem sequential_next_calls ys result fs f extra fuel :
  length fs = length ys →
  trace (drive (S fuel) (VFun <$> (fs ++ [f] ++ extra))
           (invoke {| yields := ys; ending := Returns result |}))
  = zip_with (λ g v, Called g [VNull; item false v]) fs ys
    ++ [Called f [VNull; item true result]]
    ++ ((λ g, Called g [VError (Error "iterated past end")]) <$> extra).
Proof.
  intros Hlen. rewrite !fmap_app, !drive_app. unfold invoke.
  destruct (drive_functions_yield fuel (Returns result) [] ys fs None [] Hlen)
    as [pending Hyield].
  rewrite app_nil_r in Hyield. rewrite Hyield.
  rewrite drive_single, next_ends.
  destruct (drive_functions_done fuel None extra
              (Some (Plain (or_nullFunc (VFun f))))
              (([] ++ zip_with (λ g v, Called g [VNull; item false v]) fs ys)
               ++ fn_events (or_nullFunc (VFun f))
                    (outcome_args (Returns result))))
    as [pending' Hdone].
  rewrite Hdone. cbn [trace]. by rewrite <- !app_assoc.
Qed.

(** X18.  After some values have been taken with [next], [forEach] delivers
    the remaining ones, in order, and then the outcome: no value is delivered
    twice and none is skipped. *)
Theorem forEach_after_next ys1 ys2 e fs callback done_ fuel :
  length fs = length ys1 →
  trace (run (2 * length ys2 + 1 + fuel)
           (forEach [VFun callback; VFun done_]
              (drive (S fuel) (VFun <$> fs)
                 (invoke {| yields := ys1 ++ ys2; ending := e |}))).2)
  = zip_with (λ g v, Called g [VNull; item false v]) fs ys1
    ++ ((λ v, Called callback [v]) <$> ys2)
    ++ [Called done_ (done_args e)].
Proof.
  intros Hlen. unfold invoke.
  destruct (drive_functions_yield fuel e ys2 ys1 fs None [] Hlen)
    as [pending ->].
  change (forEach [VFun callback; VFun done_] ?s).2
    with {| iterable :=
              {| done := false;
                 nextCallback :=
                   Some (StepCallback (VFun callback) (Given (VFun done_)));
                 fiber := Some {| yields := ys2; ending := e |} |};
            immediates :=
              [invokeNext_task
                 (StepCallback (VFun callback) (Given (VFun done_)))];
            trace := [] ++ zip_with (λ g v, Called g [VNull; item false v])
                             fs ys1 |}.
  by rewrite forEach_loop.
Qed.

(** X19.  When [next] is called twice before the event loop turns, the
    second callback replaces the first as [nextCallback]: the next two
    yielded values both go to the second callback, and the first callback is
    not called. *)
Theorem overlapping_next_calls v1 v2 ys e f1 f2 pending tr fuel :
  let s0 :=
    {| iterable := {| done := false; nextCallback := pending;
                      fiber := Some {| yields := v1 :: v2 :: ys; ending := e |} |};
       immediates := []; trace := tr |} in
  trace (run (2 + fuel) (next [VFun f2] (next [VFun f1] s0)))
  = tr ++ [Called f2 [VNull; item false v1];
           Called f2 [VNull; item false v2]]
  ∧ immediates (run (2 + fuel) (next [VFun f2] (next [VFun f1] s0))) = [].
Proof.
  intros s0.
  change (next [VFun f2] (next [VFun f1] s0))
    with {| iterable :=
              {| done := false; nextCallback := Some (Plain (Given (VFun f2)));
                 fiber := Some {| yields := v1 :: v2 :: ys; ending := e |} |};
            immediates := [invokeNext_task (Plain (Given (VFun f1)));
                           invokeNext_task (Plain (Given (VFun f2)))];
            trace := tr |}.
  change (2 + fuel) with (S (S fuel)). rewrite run_S.
  unfold run_task at 1. cbn [iterable done].
  unfold resume, yield, call_nextCallback. simpl.
  unfold call_fn. simpl.
  rewrite run_idle by done. simpl. by rewrite <- app_assoc.
Qed.

(** *** Concrete instances *)

(** [calls_alone_run_nothing] at a [next] and a [forEach] call on a fresh
    iterator. *)
Lemma calls_alone_run_nothing_witness :
  forallb is_call [CallNext [VFun finished]; CallForEach [VFun collect]] = true
  ∧ trace (perform_all [CallNext [VFun finished]; CallForEach [VFun collect]]
             (invoke four_values)) = []
  ∧ fiber (iterable
             (perform_all [CallNext [VFun finished]; CallForEach [VFun collect]]
                (invoke four_values))) = Some four_values
  ∧ done (iterable
            (perform_all [CallNext [VFun finished]; CallForEach [VFun collect]]
               (invoke four_values))) = false.
Proof.
  split; [reflexivity|].
  exact (calls_alone_run_nothing
           [CallNext [VFun finished]; CallForEach [VFun collect]]
           (invoke four_values) eq_refl).
Defined.

(** [done_is_permanent] at an iterator whose body has returned. *)
Lemma done_is_permanent_witness :
  let completed :=
    run 1 (next [VFun finished]
             (invoke {| yields := []; ending := Returns (VStr "done") |})) in
  done (iterable completed) = true
  ∧ done (iterable
            (perform_all [CallNext [VFun again]; CallForEach [VFun collect];
                          Turns 5] completed)) = true
  ∧ fiber (iterable
             (perform_all [CallNext [VFun again]; CallForEach [VFun collect];
                           Turns 5] completed)) = None.
Proof.
  intros completed. split; [reflexivity|].
  exact (done_is_permanent
           [CallNext [VFun again]; CallForEach [VFun collect]; Turns 5]
           completed eq_refl).
Defined.

(** [sequential_next_calls] at the tests' body for three values: a fifth call
    is told that the iteration is over. *)
Lemma sequential_next_calls_witness :
  length [collect; collect; collect] = length [VNum 111; VNum 222; VNum 333]
  ∧ trace (drive 1 (VFun <$> ([collect; collect; collect] ++ [finished]
                              ++ [again]))
             (invoke {| yields := [VNum 111; VNum 222; VNum 333];
                        ending := Returns (VStr "done") |}))
    = [Called collect [VNull; item false (VNum 111)];
       Called collect [VNull; item false (VNum 222)];
       Called collect [VNull; item false (VNum 333)];
       Called finished [VNull; item true (VStr "done")];
       Called again [VError (Error "iterated past end")]].
Proof.
  split; [reflexivity|].
  exact (sequential_next_calls [VNum 111; VNum 222; VNum 333] (VStr "done")
           [collect; collect; collect] finished [again] 0 eq_refl).
Defined.

(** [forEach_after_next] at the body of [four_values], after one [next]. *)
Lemma forEach_after_next_witness :
  length [again] = length [VNum 111]
  ∧ trace (run (2 * 3 + 1 + 0)
             (forEach [VFun collect; VFun finished]
                (drive 1 (VFun <$> [again]) (invoke four_values))).2)
    = [Called again [VNull; item false (VNum 111)];
       Called collect [VNum 222]; Called collect [VNum 333];
       Called collect [VNum 444]; Called finished [VNull; VStr "done"]].
Proof.
  split; [reflexivity|].
  exact (forEach_after_next [VNum 111] [VNum 222; VNum 333; VNum 444]
           (Returns (VStr "done")) [again] collect finished 0 eq_refl).
Defined.

End IterableCpsMore.
